(** * HDF5 genotype matrix to VCF: a shallow embedding of
      [02_scripts/001_convert_pannagram_to_vcf.py]

    The script has two stages.  [h5_to_tsv] streams the per-sample arrays of
    the HDF5 group [accs] into a tab-separated table, one row per position;
    [tsv_to_vcf] reads that table back line by line and writes one VCF record
    per row whose reference call is a canonical base.

    Modelling conventions.
    - A Python [str] is a Rocq [string]; an [ascii] stands for the code point
      of the same number (0..255).
    - An open text file in write mode is the text written to it so far (a
      line end is written as LF); the stages run in a small monad [io] that
      threads that text and stops at the first exception.  What was written
      before an exception stays in the file.
    - A text file opened for reading is the list of its lines, produced by
      [gzip_open_rt] with Python's universal-newline translation.
    - [print] calls only narrate progress and are left out. *)

From stdpp Require Import gmap strings list sorting.
From Stdlib Require Import DecimalString Ascii.

Open Scope string_scope.
Open Scope nat_scope.

(** ** Python built-ins used by the script *)

Module Py.

Definition TAB : string := String "009"%char "".
Definition LF : string := String "010"%char "".
Definition QUOTE : string := String "034"%char "".

(** [str.isspace] on one code point below 256 (CPython's
    [_PyUnicode_IsWhitespace]): U+0009..U+000D, U+001C..U+0020, U+0085,
    U+00A0. *)
Definition isspace (c : ascii) : bool :=
  let n := N_of_ascii c in
  ((9 <=? n) && (n <=? 13) || (28 <=? n) && (n <=? 32)
   || (n =? 133) || (n =? 160))%N.

Fixpoint lstrip (s : string) : string :=
  match s with
  | "" => ""
  | String c s' => if isspace c then lstrip s' else s
  end.

Fixpoint rstrip (s : string) : string :=
  match s with
  | "" => ""
  | String c s' =>
      match rstrip s' with
      | "" => if isspace c then "" else String c ""
      | r => String c r
      end
  end.

(** [s.strip()] *)
Definition strip (s : string) : string := rstrip (lstrip s).

(** [s.split(sep)] for a one-character separator: never the empty list. *)
Fixpoint split (sep : ascii) (s : string) : list string :=
  match s with
  | "" => [""]
  | String c s' =>
      if bool_decide (c = sep) then "" :: split sep s'
      else match split sep s' with
           | w :: ws => String c w :: ws
           | [] => [String c ""]
           end
  end.

(** [sep.join(xs)] *)
Definition join (sep : string) (xs : list string) : string :=
  String.concat sep xs.

(** [str(n)] for a non-negative integer: its decimal digits. *)
Definition str (n : nat) : string := NilEmpty.string_of_uint (Nat.to_uint n).

(** [sorted(xs)] on strings: ascending code-point order. *)
Definition sorted (xs : list string) : list string := merge_sort String.le xs.

(** [l[i:j]] for non-negative [i], [j]. *)
Definition slice {A} (i j : nat) (l : list A) : list A := take (j - i) (drop i l).

(** [l[i:]] for non-negative [i]. *)
Definition slice_from {A} (i : nat) (l : list A) : list A := drop i l.

(** [l[i:-1]] for non-negative [i]. *)
Definition slice_to_last {A} (i : nat) (l : list A) : list A :=
  take (length l - 1 - i) (drop i l).

(** [x in l] followed by [l.index(x)]: the position of the first occurrence,
    [None] when [x in l] is false. *)
Fixpoint index (x : string) (l : list string) : option nat :=
  match l with
  | [] => None
  | y :: l' => if bool_decide (x = y) then Some 0 else S <$> index x l'
  end.

(** [range(start, stop, step)] for non-negative arguments and [step > 0];
    [fuel] bounds the number of elements. *)
Fixpoint range_from (fuel start stop step : nat) : list nat :=
  match fuel with
  | 0 => []
  | S fuel' =>
      if bool_decide (start < stop)
      then start :: range_from fuel' (start + step) stop step
      else []
  end.

Definition range (start stop step : nat) : list nat :=
  range_from (stop - start) start stop step.

End Py.

Import Py.

(** ** Exceptions and the output-file monad *)

Inductive exn : Set :=
| IndexError   (* a list indexed out of range *)
| KeyError     (* a missing key of the HDF5 group *)
| ValueError.  (* numpy refusing the shapes it is given; range() step 0 *)

Inductive result (A : Type) : Type :=
| Ok (a : A)
| Raise (e : exn).
Arguments Ok {A} a.
Arguments Raise {A} e.

#[export] Instance exn_eq_dec : EqDecision exn.
Proof. solve_decision. Defined.

(** A computation writing to one open text file: from the text written so
    far to the text written afterwards and a value or an exception. *)
Record io (A : Type) : Type := IO { run : string → string * result A }.
Arguments IO {A} run.
Arguments run {A} _ _.

#[export] Instance io_ret : MRet io := λ A a, IO (λ out, (out, Ok a)).
#[export] Instance io_bind : MBind io := λ A B f m,
  IO (λ out,
    match run m out with
    | (out', Ok a) => run (f a) out'
    | (out', Raise e) => (out', Raise e)
    end).

(** [out.write(s)] *)
Definition write (s : string) : io unit := IO (λ out, (out +:+ s, Ok ())).

(** A value that Python computes with an operation that may raise. *)
Definition lift {A} (r : result A) : io A := IO (λ out, (out, r)).

Definition or_raise {A} (e : exn) (o : option A) : result A :=
  match o with
  | Some a => Ok a
  | None => Raise e
  end.

(** [for x in xs: body(x)] *)
Fixpoint for_ {A} (xs : list A) (body : A → io unit) : io unit :=
  match xs with
  | [] => mret ()
  | x :: xs' => body x;; for_ xs' body
  end.

(** ** Text files opened for reading *)

(** Universal-newline translation of a text stream opened with the default
    [newline=None]: CR LF and a lone CR both read as LF. *)
Fixpoint translate_newlines (s : string) : string :=
  match s with
  | "" => ""
  | String c s' =>
      if bool_decide (c = "013"%char) then
        match s' with
        | String c' s'' =>
            if bool_decide (c' = "010"%char)
            then String "010"%char (translate_newlines s'')
            else String "010"%char (translate_newlines s')
        | "" => LF
        end
      else String c (translate_newlines s')
  end.

(** The lines of a translated text, each with its terminating LF (the last
    one without, when the text does not end in LF). *)
Fixpoint readlines (s : string) : list string :=
  match s with
  | "" => []
  | String c s' =>
      if bool_decide (c = "010"%char) then LF :: readlines s'
      else match readlines s' with
           | [] => [String c ""]
           | l :: ls => String c l :: ls
           end
  end.

(** [gzip.open(path, "rt")]: the line stream of a file with content [text]. *)
Definition gzip_open_rt (text : string) : list string :=
  readlines (translate_newlines text).

(** ** Step 2: [tsv_to_vcf] *)

Definition valid_bases : gset string := {[ "A"; "C"; "G"; "T" ]}.
Definition missing_bases : gset string := {[ "N"; "-" ]}.

(** [sorted(set(b for b in sample_bases if b in valid_bases and b != ref_base))] *)
Definition alt_alleles (ref_base : string) (sample_bases : list string) : list string :=
  sorted (elements (list_to_set
    (filter (λ b, b ∈ valid_bases ∧ b ≠ ref_base) sample_bases) : gset string)).

(** [",".join(alt_alleles) if alt_alleles else "."] *)
Definition alt_field (alts : list string) : string :=
  match alts with
  | [] => "."
  | _ => join "," alts
  end.

(** The four branches of the per-sample [if/elif/elif/else]. *)
Inductive genotype : Set :=
| Missing                        (* first branch *)
| Reference                      (* base == ref_base *)
| Alternate (allele_index : nat) (* base in alt_alleles *)
| Unknown.                       (* the final else *)

#[export] Instance genotype_eq_dec : EqDecision genotype.
Proof. solve_decision. Defined.

Definition classify (ref_base : string) (alts : list string) (base : string) : genotype :=
  if bool_decide (base ∈ missing_bases) || negb (bool_decide (base ∈ valid_bases))
  then Missing
  else if bool_decide (base = ref_base) then Reference
  else match index base alts with
       | Some i => Alternate (i + 1)
       | None => Unknown
       end.

(** The string appended to [genotypes] in each branch. *)
Definition genotype_code (g : genotype) : string :=
  match g with
  | Missing => "./."
  | Reference => "0/0"
  | Alternate k => str k +:+ "/" +:+ str k
  | Unknown => "./."
  end.

Definition genotypes (ref_base : string) (sample_bases : list string) : list string :=
  let alts := alt_alleles ref_base sample_bases in
  (λ base, genotype_code (classify ref_base alts base)) <$> sample_bases.

Definition vcf_line (chrom position ref_base : string) (sample_bases : list string) : string :=
  chrom +:+ TAB +:+ position +:+ TAB +:+ "." +:+ TAB +:+ ref_base +:+ TAB
    +:+ alt_field (alt_alleles ref_base sample_bases) +:+ TAB +:+ "." +:+ TAB
    +:+ "PASS" +:+ TAB +:+ "." +:+ TAB +:+ "GT" +:+ TAB
    +:+ join TAB (genotypes ref_base sample_bases) +:+ LF.

(** The four header lines written before the first record. *)
Definition vcf_header (ref_name : string) (samples : list string) : string :=
  "##fileformat=VCFv4.2" +:+ LF
  +:+ "##reference=" +:+ ref_name +:+ LF
  +:+ "##FORMAT=<ID=GT,Number=1,Type=String,Description=" +:+ QUOTE
      +:+ "Genotype" +:+ QUOTE +:+ ">" +:+ LF
  +:+ "#CHROM" +:+ TAB +:+ "POS" +:+ TAB +:+ "ID" +:+ TAB +:+ "REF" +:+ TAB
      +:+ "ALT" +:+ TAB +:+ "QUAL" +:+ TAB +:+ "FILTER" +:+ TAB +:+ "INFO"
      +:+ TAB +:+ "FORMAT" +:+ TAB +:+ join TAB samples +:+ LF.

(** The body of [for line in fin]. *)
Definition encode_line (chrom line : string) : io unit :=
  let parts := split "009" (strip line) in
  position ← lift (or_raise IndexError (head parts));
  let bases := slice_from 1 parts in
  ref_base ← lift (or_raise IndexError (last bases));
  let sample_bases := slice_to_last 0 bases in
  if negb (bool_decide (ref_base ∈ valid_bases)) then mret ()  (* continue *)
  else write (vcf_line chrom position ref_base sample_bases).

(** [tsv_to_vcf]: [fin] is the line stream of the opened table, the monad's
    file is [fout]. *)
Definition tsv_to_vcf (fin : list string) (chrom : string) : io unit :=
  (* fin.readline() is the empty string at end of file *)
  let header := split "009" (strip (default "" (head fin))) in
  let samples := slice_to_last 1 header in
  ref_name ← lift (or_raise IndexError (last header));
  write (vcf_header ref_name samples);;
  for_ (tail fin) (encode_line chrom).

(** ** Step 1: [h5_to_tsv] *)

(** One dataset of the group [accs]: a one-dimensional array, each element
    given as the string that [astype(str)] makes of it. *)
Definition dataset : Type := list string.

(** [np.stack(arrays, axis=1)] of one-dimensional arrays: row [i] holds
    element [i] of every array; arrays of different lengths are refused. *)
Definition np_stack_axis1 (arrays : list (list string)) : result (list (list string)) :=
  match arrays with
  | [] => Raise ValueError
  | a :: rest =>
      if bool_decide (Forall (λ b, length b = length a) rest)
      then Ok (foldr (zip_with cons) (replicate (length a) []) arrays)
      else Raise ValueError
  end.

(** [np.concatenate([a, b], axis=1)] of two-dimensional arrays. *)
Definition np_concatenate_axis1 (a b : list (list string)) : result (list (list string)) :=
  if bool_decide (length a = length b) then Ok (zip_with app a b)
  else Raise ValueError.

(** [output_chunk] of the window [start, end_). *)
Definition output_chunk (datasets : list dataset) (start end_ : nat)
    : result (list (list string)) :=
  match np_stack_axis1 (slice start end_ <$> datasets) with
  | Raise e => Raise e
  | Ok chunk_data =>
      (* (np.arange(start, end) + 1).astype(str).reshape(-1, 1) *)
      let positions := (λ i, [str (i + 1)]) <$> seq start (end_ - start) in
      np_concatenate_axis1 positions chunk_data
  end.

(** The body of [for start in range(0, num_positions, chunk_size)]. *)
Definition write_chunk (chunk_size : nat) (datasets : list dataset)
    (num_positions start : nat) : io unit :=
  let end_ := (start + chunk_size) `min` num_positions in
  rows ← lift (output_chunk datasets start end_);
  write (join LF (join TAB <$> rows) +:+ LF).

(** [h5_to_tsv] with its local constant [chunk_size] as a parameter; [accs]
    is the group [f["accs"]], the monad's file is [out]. *)
Definition h5_to_tsv_with (chunk_size : nat) (accs : gmap string dataset) : io unit :=
  let sample_names := sorted (elements (dom accs)) in
  datasets ← lift (or_raise KeyError (mapM (λ name, accs !! name) sample_names));
  ds0 ← lift (or_raise IndexError (head datasets));
  let num_positions := length ds0 in
  write ("pos" +:+ TAB +:+ join TAB sample_names +:+ LF);;
  starts ← lift (if bool_decide (chunk_size = 0) then Raise ValueError
                 else Ok (range 0 num_positions chunk_size));
  for_ starts (write_chunk chunk_size datasets num_positions).

Definition chunk_size : nat := 500 * 1000.  (* 500_000 *)

Definition h5_to_tsv (accs : gmap string dataset) : io unit :=
  h5_to_tsv_with chunk_size accs.

(** ** Main program *)

(** The two files the run leaves behind; [None] for a file never opened. *)
Record files : Type := Files {
  intermediate_tsv : option string;
  output_vcf : option string
}.

(** The two calls under "Run conversion": an exception in the first stage
    ends the program before the second one starts. *)
Definition main_with (chunk_size : nat) (accs : gmap string dataset) (chromosome : string)
    : files * result unit :=
  match run (h5_to_tsv_with chunk_size accs) "" with
  | (tsv, Raise e) => (Files (Some tsv) None, Raise e)
  | (tsv, Ok _) =>
      match run (tsv_to_vcf (gzip_open_rt tsv) chromosome) "" with
      | (vcf, r) => (Files (Some tsv) (Some vcf), r)
      end
  end.

Definition main (accs : gmap string dataset) (chromosome : string) : files * result unit :=
  main_with chunk_size accs chromosome.

(** ** File names of the main program *)

(** [s.rfind(c)] for a one-character [c]: the index of the last occurrence
    of [c], -1 when there is none. *)
Fixpoint rfind (c : ascii) (s : string) : Z :=
  match s with
  | "" => (-1)%Z
  | String d s' =>
      let r := rfind c s' in
      if bool_decide (0 ≤ r)%Z then (r + 1)%Z
      else if bool_decide (d = c) then 0%Z else (-1)%Z
  end.

(** [s[:n]] for non-negative [n]. *)
Fixpoint str_take (n : nat) (s : string) : string :=
  match n, s with
  | S n', String c s' => String c (str_take n' s')
  | _, _ => ""
  end.

(** [s[n:]] for non-negative [n]. *)
Fixpoint str_drop (n : nat) (s : string) : string :=
  match n, s with
  | S n', String _ s' => str_drop n' s'
  | _, _ => s
  end.

(** [s.endswith(suffix)] *)
Definition endswith (suffix s : string) : bool :=
  bool_decide (String.length suffix ≤ String.length s)
  && String.eqb (str_drop (String.length s - String.length suffix) s) suffix.

(** The loop of [genericpath._splitext] that skips the leading dots of the
    file name: the split at [dotIndex] as soon as a character of
    [p[filenameIndex:dotIndex]] is not a dot, [None] when the loop runs
    out.  [fuel] bounds the number of rounds. *)
Fixpoint splitext_scan (fuel : nat) (p : string) (filenameIndex dotIndex : nat)
    : option (string * string) :=
  match fuel with
  | 0 => None
  | S fuel' =>
      if bool_decide (filenameIndex < dotIndex) then
        if negb (String.eqb (str_take 1 (str_drop filenameIndex p)) ".")
        then Some (str_take dotIndex p, str_drop dotIndex p)
        else splitext_scan fuel' p (filenameIndex + 1) dotIndex
      else None
  end.

(** [os.path.splitext(p)] of [posixpath]: the extension runs from the last
    dot to the end, when that dot comes after the last slash and after a
    character of the file name that is not a dot. *)
Definition splitext (p : string) : string * string :=
  let sepIndex := rfind "/" p in
  let dotIndex := rfind "." p in
  if bool_decide (sepIndex < dotIndex)%Z then
    match splitext_scan (Z.to_nat (dotIndex - sepIndex)) p
            (Z.to_nat (sepIndex + 1)) (Z.to_nat dotIndex) with
    | Some split_at_dot => split_at_dot
    | None => (p, "")
    end
  else (p, "").

(** [intermediate_tsv] of the main program, computed from [output_vcf]. *)
Definition intermediate_tsv_name (output_vcf : string) : string :=
  let base_name := (splitext output_vcf).1 in
  let base_name :=
    if endswith ".vcf" base_name then (splitext base_name).1 else base_name in
  base_name +:+ "_temp.tsv.gz".

(** ** Vocabulary of the statements *)

(** [sample_names] and [datasets] of [h5_to_tsv]. *)
Definition sample_names (accs : gmap string dataset) : list string :=
  sorted (elements (dom accs)).

Definition datasets_of (accs : gmap string dataset) : list dataset :=
  (λ name, accs !!! name) <$> sample_names accs.

Definition header_line (accs : gmap string dataset) : string :=
  "pos" +:+ TAB +:+ join TAB (sample_names accs) +:+ LF.

(** The Position Row of index [i]: the position [i + 1], then element [i]
    of every dataset in order. *)
Definition table_row (datasets : list dataset) (i : nat) : list string :=
  str (i + 1) :: ((λ ds : dataset, ds !!! i) <$> datasets).

(** The rows of the indices [lo], ..., [hi - 1]. *)
Definition table_rows (datasets : list dataset) (lo hi : nat) : list (list string) :=
  table_row datasets <$> seq lo (hi - lo).

(** Rows as text: tab-separated, each line closed by LF. *)
Fixpoint render (rows : list (list string)) : string :=
  match rows with
  | [] => ""
  | row :: rows' => join TAB row +:+ LF +:+ render rows'
  end.

(** All characters of [s] satisfy [P]. *)
Fixpoint string_forall (P : ascii → bool) (s : string) : bool :=
  match s with
  | "" => true
  | String c s' => P c && string_forall P s'
  end.

(** No whitespace character, in particular no tab and no line end. *)
Definition no_space (s : string) : bool := string_forall (λ c, negb (isspace c)) s.

(** A non-empty string without whitespace: a value that a cell of a
    tab-separated line holds without changing how the line is read. *)
Definition is_token (s : string) : bool := negb (String.eqb s "") && no_space s.

Definition no_newline (s : string) : bool :=
  string_forall (λ c, negb (bool_decide (c = "013"%char))
                      && negb (bool_decide (c = "010"%char))) s.

(** What the encoder writes for the row [position :: sample_bases ++ [ref_base]]. *)
Definition record (chrom position ref_base : string) (sample_bases : list string) : string :=
  if bool_decide (ref_base ∈ valid_bases)
  then vcf_line chrom position ref_base sample_bases
  else "".

(** Element [i] of the arrays of [names], in the order of [names]. *)
Definition calls_at (accs : gmap string dataset) (names : list string) (i : nat)
    : list string :=
  (λ name, (accs !!! name : dataset) !!! i) <$> names.

(** ** Vocabulary of the further properties *)

(** The character [c] does not occur in [s]. *)
Definition no_char (c : ascii) (s : string) : bool :=
  string_forall (λ d, negb (bool_decide (d = c))) s.

(** Neither a dot nor a slash occurs in [s]. *)
Definition plain (s : string) : bool := no_char "." s && no_char "/" s.

(** The cells of a line as the encoder reads them. *)
Definition line_fields (line : string) : list string := split "009" (strip line).

(** What the encoder writes for a line of at least two cells: the record of
    its position, its last cell as reference and the cells between as
    samples. *)
Definition line_record (chrom line : string) : string :=
  match line_fields line with
  | position :: bases =>
      match last bases with
      | Some ref_base => record chrom position ref_base (slice_to_last 0 bases)
      | None => ""
      end
  | [] => ""
  end.

(** * Properties *)

(** ** The monad *)

Section monad_facts.
Context {A B : Type}.

Lemma run_bind (m : io A) (f : A → io B) out :
  run (m ≫= f) out =
    match run m out with
    | (out', Ok a) => run (f a) out'
    | (out', Raise e) => (out', Raise e)
    end.
Proof. reflexivity. Qed.
End monad_facts.

Lemma run_for_app {A} (xs ys : list A) body out :
  run (for_ (xs ++ ys) body) out =
    match run (for_ xs body) out with
    | (out', Ok _) => run (for_ ys body) out'
    | (out', Raise e) => (out', Raise e)
    end.
Proof.
  revert out. induction xs as [|x xs IH]; intros out; [done|].
  change (for_ ((x :: xs) ++ ys) body) with (body x;; for_ (xs ++ ys) body).
  change (for_ (x :: xs) body) with (body x;; for_ xs body).
  rewrite !run_bind. destruct (run (body x) out) as [out' [[]|e]]; [|done].
  apply IH.
Qed.

(** A body that writes nothing and returns can be dropped from the loop. *)
Lemma run_for_skip {A} (xs ys : list A) x body :
  (∀ out, run (body x) out = (out, Ok ())) →
  ∀ out, run (for_ (xs ++ x :: ys) body) out = run (for_ (xs ++ ys) body) out.
Proof.
  intros Hx out. rewrite !run_for_app.
  destruct (run (for_ xs body) out) as [out' [[]|e]]; [|done].
  change (for_ (x :: ys) body) with (body x;; for_ ys body).
  by rewrite run_bind, Hx.
Qed.

(** ** Lists and strings *)

Lemma slice_to_last_snoc {A} (l : list A) x : slice_to_last 0 (l ++ [x]) = l.
Proof.
  unfold slice_to_last. rewrite length_app. simpl.
  replace (length l + 1 - 1 - 0) with (length l) by lia.
  apply take_app_length.
Qed.

Lemma index_None x l : index x l = None ↔ x ∉ l.
Proof.
  induction l as [|y l IH]; simpl.
  - split; [intros _; apply not_elem_of_nil | done].
  - case_bool_decide as Hxy.
    + split; [done|]. rewrite not_elem_of_cons. tauto.
    + rewrite fmap_None, IH, not_elem_of_cons. tauto.
Qed.

Lemma index_Some x l i : index x l = Some i → l !! i = Some x.
Proof.
  revert i. induction l as [|y l IH]; intros i; simpl; [done|].
  case_bool_decide as Hxy.
  - intros [= <-]. by subst.
  - rewrite fmap_Some. intros (j & Hj & ->). simpl. auto.
Qed.

(** ** The alphabets *)

Lemma elem_of_valid_bases b :
  b ∈ valid_bases ↔ b = "A" ∨ b = "C" ∨ b = "G" ∨ b = "T".
Proof.
  unfold valid_bases. rewrite !elem_of_union, !elem_of_singleton. tauto.
Qed.

Lemma elem_of_missing_bases b : b ∈ missing_bases ↔ b = "N" ∨ b = "-".
Proof.
  unfold missing_bases. rewrite elem_of_union, !elem_of_singleton. tauto.
Qed.

Lemma missing_not_valid b : b ∈ missing_bases → b ∉ valid_bases.
Proof.
  rewrite elem_of_missing_bases, elem_of_valid_bases.
  intros [->| ->] [?|[?|[?|?]]]; discriminate.
Qed.

(** ** Alternate alleles *)

Lemma sorted_Permutation xs : sorted xs ≡ₚ xs.
Proof. apply merge_sort_Permutation. Qed.

Lemma sorted_Sorted xs : Sorted String.le (sorted xs).
Proof. apply (Sorted_merge_sort String.le). Qed.

Lemma elem_of_alt_alleles ref_base sample_bases b :
  b ∈ alt_alleles ref_base sample_bases ↔
    b ∈ sample_bases ∧ b ∈ valid_bases ∧ b ≠ ref_base.
Proof.
  unfold alt_alleles.
  rewrite sorted_Permutation, elem_of_elements, elem_of_list_to_set,
    list_elem_of_filter.
  tauto.
Qed.

Lemma alt_alleles_NoDup ref_base sample_bases :
  NoDup (alt_alleles ref_base sample_bases).
Proof.
  unfold alt_alleles. rewrite sorted_Permutation. apply NoDup_elements.
Qed.

Lemma alt_alleles_no_alternate ref_base sample_bases :
  Forall (λ b, b = ref_base) sample_bases →
  alt_alleles ref_base sample_bases = [].
Proof.
  intros Hall. apply elem_of_nil_inv. intros b.
  rewrite elem_of_alt_alleles. intros (Hb & _ & Hne).
  rewrite Forall_forall in Hall. by apply Hne, Hall.
Qed.

(** ** One line of the table *)

Lemma encode_line_run chrom line out :
  run (encode_line chrom line) out =
    match split "009" (strip line) with
    | position :: bases =>
        match last bases with
        | Some ref_base =>
            if bool_decide (ref_base ∈ valid_bases)
            then (out +:+ vcf_line chrom position ref_base (slice_to_last 0 bases),
                  Ok ())
            else (out, Ok ())
        | None => (out, Raise IndexError)
        end
    | [] => (out, Raise IndexError)
    end.
Proof.
  unfold encode_line. destruct (split "009" (strip line)) as [|position bases]; [done|].
  simpl. unfold slice_from. simpl. destruct (last bases) as [ref_base|]; [|done].
  simpl. by case_bool_decide.
Qed.

Lemma encode_line_emit chrom line position sample_bases ref_base out :
  split "009" (strip line) = position :: sample_bases ++ [ref_base] →
  ref_base ∈ valid_bases →
  run (encode_line chrom line) out =
    (out +:+ vcf_line chrom position ref_base sample_bases, Ok ()).
Proof.
  intros Hparts Href. rewrite encode_line_run, Hparts, last_snoc.
  rewrite bool_decide_true by done. by rewrite slice_to_last_snoc.
Qed.

Lemma encode_line_skip chrom line position sample_bases ref_base out :
  split "009" (strip line) = position :: sample_bases ++ [ref_base] →
  ref_base ∉ valid_bases →
  run (encode_line chrom line) out = (out, Ok ()).
Proof.
  intros Hparts Href. rewrite encode_line_run, Hparts, last_snoc.
  by rewrite bool_decide_false.
Qed.

Lemma split_nonempty sep s : split sep s ≠ [].
Proof.
  destruct s as [|c s]; simpl; [done|].
  case_bool_decide; [done|]. by destruct (split sep s).
Qed.

Lemma tsv_to_vcf_run header fin chrom out :
  run (tsv_to_vcf (header :: fin) chrom) out =
    let fields := split "009" (strip header) in
    run (for_ fin (encode_line chrom))
      (out +:+ vcf_header (default "" (last fields)) (slice_to_last 1 fields)).
Proof.
  unfold tsv_to_vcf. simpl.
  destruct (last (split "009" (strip header))) as [ref_name|] eqn:Hlast.
  - done.
  - apply last_None in Hlast. by apply split_nonempty in Hlast.
Qed.

Lemma tsv_to_vcf_app header fin1 fin2 chrom out :
  run (tsv_to_vcf (header :: fin1 ++ fin2) chrom) out =
    match run (tsv_to_vcf (header :: fin1) chrom) out with
    | (out', Ok _) => run (for_ fin2 (encode_line chrom)) out'
    | (out', Raise e) => (out', Raise e)
    end.
Proof. rewrite !tsv_to_vcf_run. simpl. apply run_for_app. Qed.

(** ** Genotype classification *)

Lemma classify_missing ref_base alts base :
  base ∉ valid_bases → classify ref_base alts base = Missing.
Proof.
  intros Hb. unfold classify.
  rewrite (bool_decide_false (base ∈ valid_bases)) by done.
  by rewrite orb_true_r.
Qed.

Lemma classify_reference ref_base alts :
  ref_base ∈ valid_bases → classify ref_base alts ref_base = Reference.
Proof.
  intros Href. unfold classify.
  rewrite (bool_decide_true (ref_base ∈ valid_bases)) by done.
  rewrite bool_decide_false by (intros ?; by eapply missing_not_valid).
  simpl. by rewrite bool_decide_true.
Qed.

Lemma classify_canonical ref_base alts base :
  base ∈ valid_bases → base ≠ ref_base →
  classify ref_base alts base =
    match index base alts with
    | Some i => Alternate (i + 1)
    | None => Unknown
    end.
Proof.
  intros Hb Hne. unfold classify.
  rewrite (bool_decide_true (base ∈ valid_bases)) by done.
  rewrite bool_decide_false by (intros ?; by eapply missing_not_valid).
  simpl. by rewrite bool_decide_false.
Qed.

Lemma genotypes_lookup ref_base sample_bases i base :
  sample_bases !! i = Some base →
  genotypes ref_base sample_bases !! i =
    Some (genotype_code (classify ref_base (alt_alleles ref_base sample_bases) base)).
Proof. intros Hi. unfold genotypes. by rewrite list_lookup_fmap, Hi. Qed.

(** ** Claims about the Variant Encoder *)

(** C3.  For the row with sample calls [A, G, C, A] and reference [A] the
    discovered alternate list is [C, G]: sorted by value, although [G] is
    met first.  The four samples are classified reference, alternate 2,
    alternate 1, reference; the genotype codes are 0/0, 2/2, 1/1, 0/0 in
    that order; and the line of the table carrying that row is written as
    the record with ALT [C,G] and those four codes. *)
Theorem allele_determinism_example :
  alt_alleles "A" ["A"; "G"; "C"; "A"] = ["C"; "G"]
  ∧ classify "A" (alt_alleles "A" ["A"; "G"; "C"; "A"]) <$> ["A"; "G"; "C"; "A"]
      = [Reference; Alternate 2; Alternate 1; Reference]
  ∧ genotypes "A" ["A"; "G"; "C"; "A"] = ["0/0"; "2/2"; "1/1"; "0/0"]
  ∧ ∀ chrom out,
      run (encode_line chrom (join TAB ["7"; "A"; "G"; "C"; "A"; "A"] +:+ LF)) out
      = (out +:+ chrom +:+ TAB
           +:+ join TAB ["7"; "."; "A"; "C,G"; "."; "PASS"; "."; "GT";
                         "0/0"; "2/2"; "1/1"; "0/0"] +:+ LF,
         Ok ()).
Proof.
  split_and!; [by vm_compute..|].
  intros chrom out.
  by rewrite (encode_line_emit chrom _ "7" ["A"; "G"; "C"; "A"] "A").
Qed.

(** A line whose last cell, as the encoder reads the line (after [strip],
    split on tabs), is not one of A, C, G, T writes nothing and raises
    nothing, and the run goes on with the next line: the whole run is the
    run on the table without that line. *)
Theorem ambiguous_reference_skipped
    chrom header fin1 line fin2 position sample_bases ref_base :
  split "009" (strip line) = position :: sample_bases ++ [ref_base] →
  ref_base ∉ valid_bases →
  (∀ out, run (encode_line chrom line) out = (out, Ok ()))
  ∧ ∀ out, run (tsv_to_vcf (header :: fin1 ++ line :: fin2) chrom) out
           = run (tsv_to_vcf (header :: fin1 ++ fin2) chrom) out.
Proof.
  intros Hparts Href.
  assert (∀ out, run (encode_line chrom line) out = (out, Ok ())) as Hskip.
  { intros out. by eapply encode_line_skip. }
  split; [done|]. intros out. rewrite !tsv_to_vcf_run. simpl.
  by apply run_for_skip.
Qed.

Lemma ambiguous_reference_skipped_witness :
  (∀ out, run (encode_line "Chr1" (join TAB ["4"; "T"; "N"; "N"] +:+ LF)) out
          = (out, Ok ()))
  ∧ ∀ out,
      run (tsv_to_vcf
             ([join TAB ["pos"; "a"; "b"; "ref"] +:+ LF]
                ++ (join TAB ["4"; "T"; "N"; "N"] +:+ LF)
                :: [join TAB ["5"; "A"; "C"; "A"] +:+ LF]) "Chr1") out
      = run (tsv_to_vcf
               ([join TAB ["pos"; "a"; "b"; "ref"] +:+ LF]
                  ++ [join TAB ["5"; "A"; "C"; "A"] +:+ LF]) "Chr1") out.
Proof.
  apply (ambiguous_reference_skipped "Chr1" _ [] _ _ "4" ["T"; "N"] "N").
  - reflexivity.
  - vm_compute. intros H. discriminate H.
Defined.

(** C6, at a failing input.  In the store with the samples [a], [b], [c]
    and the calls [C], [A] and a blank, the row of position 1 has the blank
    as its reference character, which is not one of A, C, G, T; yet the
    encoder does not drop the row: [strip] removes the blank cell, the call
    [A] of [b] is read as the reference and a record is written.  When the
    blank is the only call of the row, reading the reference raises
    IndexError. *)
Theorem blank_reference_row_not_skipped :
  let accs : gmap string dataset := {[ "a" := ["C"]; "b" := ["A"]; "c" := [" "] ]} in
  let row := join TAB ["1"; "C"; "A"; " "] +:+ LF in
  run (h5_to_tsv accs) "" = (join TAB ["pos"; "a"; "b"; "c"] +:+ LF +:+ row, Ok ())
  ∧ (" " ∉ valid_bases)
  ∧ run (encode_line "Chr1" row) ""
    = (join TAB ["Chr1"; "1"; "."; "A"; "C"; "."; "PASS"; "."; "GT"; "1/1"] +:+ LF,
       Ok ())
  ∧ run (h5_to_tsv {[ "c" := [" "] ]}) ""
    = (join TAB ["pos"; "c"] +:+ LF +:+ join TAB ["1"; " "] +:+ LF, Ok ())
  ∧ run (encode_line "Chr1" (join TAB ["1"; " "] +:+ LF)) ""
    = ("", Raise IndexError).
Proof. split_and!; by vm_compute. Qed.

(** C7.  In a row that is emitted, a sample whose call is [N], is [-], or
    is anything else outside {A, C, G, T} takes the first branch of the
    classification and its genotype column is [./.]. *)
Theorem missing_call_genotype
    chrom line position sample_bases ref_base i base out :
  split "009" (strip line) = position :: sample_bases ++ [ref_base] →
  ref_base ∈ valid_bases →
  sample_bases !! i = Some base →
  base = "N" ∨ base = "-" ∨ base ∉ valid_bases →
  run (encode_line chrom line) out
    = (out +:+ vcf_line chrom position ref_base sample_bases, Ok ())
  ∧ classify ref_base (alt_alleles ref_base sample_bases) base = Missing
  ∧ genotypes ref_base sample_bases !! i = Some "./.".
Proof.
  intros Hparts Href Hi Hbase.
  assert (base ∉ valid_bases) as Hnv.
  { destruct Hbase as [->| [->|?]]; [| |done];
      apply missing_not_valid, elem_of_missing_bases; auto. }
  split_and!.
  - by apply encode_line_emit.
  - by apply classify_missing.
  - erewrite genotypes_lookup by done. by rewrite classify_missing.
Qed.

Lemma missing_call_genotype_witness :
  run (encode_line "Chr1" (join TAB ["9"; "N"; "-"; "x"; "C"; "A"] +:+ LF)) ""
    = ("" +:+ vcf_line "Chr1" "9" "A" ["N"; "-"; "x"; "C"], Ok ())
  ∧ classify "A" (alt_alleles "A" ["N"; "-"; "x"; "C"]) "x" = Missing
  ∧ genotypes "A" ["N"; "-"; "x"; "C"] !! 2 = Some "./.".
Proof.
  apply (missing_call_genotype "Chr1" _ "9" ["N"; "-"; "x"; "C"] "A" 2 "x" "").
  - reflexivity.
  - apply elem_of_valid_bases. left. reflexivity.
  - reflexivity.
  - right. right. vm_compute. intros H. discriminate H.
Defined.

(** C8.  In a row with a canonical reference base where every sample call
    equals the reference, no alternate is discovered, the ALT field is the
    sentinel [.], every genotype code is [0/0], and the record written is
    made of exactly these. *)
Theorem no_alternate_row
    chrom line position sample_bases ref_base out :
  split "009" (strip line) = position :: sample_bases ++ [ref_base] →
  ref_base ∈ valid_bases →
  Forall (λ base, base = ref_base) sample_bases →
  alt_field (alt_alleles ref_base sample_bases) = "."
  ∧ genotypes ref_base sample_bases = replicate (length sample_bases) "0/0"
  ∧ run (encode_line chrom line) out
    = (out +:+ chrom +:+ TAB +:+ position +:+ TAB +:+ "." +:+ TAB +:+ ref_base
         +:+ TAB +:+ "." +:+ TAB +:+ "." +:+ TAB +:+ "PASS" +:+ TAB +:+ "."
         +:+ TAB +:+ "GT" +:+ TAB
         +:+ join TAB (replicate (length sample_bases) "0/0") +:+ LF,
       Ok ()).
Proof.
  intros Hparts Href Hall.
  assert (alt_alleles ref_base sample_bases = []) as Halts
    by by apply alt_alleles_no_alternate.
  assert (genotypes ref_base sample_bases
          = replicate (length sample_bases) "0/0") as Hgt.
  { unfold genotypes. rewrite Halts. clear Hparts Halts.
    induction Hall as [|base l -> _ IH]; [done|].
    rewrite fmap_cons, IH. simpl. by rewrite classify_reference. }
  split_and!; [by rewrite Halts|done|].
  rewrite (encode_line_emit chrom line position sample_bases ref_base) by done.
  unfold vcf_line. by rewrite Halts, Hgt.
Qed.

Lemma no_alternate_row_witness :
  alt_field (alt_alleles "G" ["G"; "G"; "G"]) = "."
  ∧ genotypes "G" ["G"; "G"; "G"] = replicate (length ["G"; "G"; "G"]) "0/0"
  ∧ run (encode_line "Chr5" (join TAB ["12"; "G"; "G"; "G"; "G"] +:+ LF)) ""
    = ("" +:+ "Chr5" +:+ TAB +:+ "12" +:+ TAB +:+ "." +:+ TAB +:+ "G"
         +:+ TAB +:+ "." +:+ TAB +:+ "." +:+ TAB +:+ "PASS" +:+ TAB +:+ "."
         +:+ TAB +:+ "GT" +:+ TAB
         +:+ join TAB (replicate (length ["G"; "G"; "G"]) "0/0") +:+ LF,
       Ok ()).
Proof.
  apply (no_alternate_row "Chr5" _ "12" ["G"; "G"; "G"] "G" "").
  - reflexivity.
  - apply elem_of_valid_bases. right. right. left. reflexivity.
  - repeat constructor.
Defined.

(** C9.  The final [else] of the classification is never taken for a call
    of the row: a call that is a canonical base other than the reference is
    in the row's alternate list, so every call is classified missing,
    reference, or alternate [k] with the call at place [k] (from 1) of the
    alternate list. *)
Theorem unknown_branch_unreachable ref_base sample_bases base :
  base ∈ sample_bases →
  let alts := alt_alleles ref_base sample_bases in
  (base ∈ valid_bases → base ≠ ref_base → base ∈ alts)
  ∧ classify ref_base alts base ≠ Unknown
  ∧ (classify ref_base alts base = Missing
     ∨ classify ref_base alts base = Reference
     ∨ ∃ k, classify ref_base alts base = Alternate (k + 1)
            ∧ alts !! k = Some base).
Proof.
  intros Hin alts.
  assert (base ∈ valid_bases → base ≠ ref_base → base ∈ alts) as Hmem.
  { intros Hv Hne. by apply elem_of_alt_alleles. }
  assert (classify ref_base alts base = Missing
     ∨ classify ref_base alts base = Reference
     ∨ ∃ k, classify ref_base alts base = Alternate (k + 1)
            ∧ alts !! k = Some base) as Hcases.
  { destruct (decide (base ∈ valid_bases)) as [Hv|Hv];
      [|left; by apply classify_missing].
    destruct (decide (base = ref_base)) as [->|Hne];
      [right; left; by apply classify_reference|].
    right. right. rewrite classify_canonical by done.
    destruct (index base alts) as [k|] eqn:Hk.
    - exists k. split; [done|]. by apply index_Some.
    - apply index_None in Hk. by destruct Hk; apply Hmem. }
  split_and!; [done| |done].
  destruct Hcases as [->|[->|(k & -> & _)]]; done.
Qed.

Lemma unknown_branch_unreachable_witness :
  ("T" ∈ valid_bases → "T" ≠ "A" → "T" ∈ alt_alleles "A" ["A"; "T"; "N"])
  ∧ classify "A" (alt_alleles "A" ["A"; "T"; "N"]) "T" ≠ Unknown
  ∧ (classify "A" (alt_alleles "A" ["A"; "T"; "N"]) "T" = Missing
     ∨ classify "A" (alt_alleles "A" ["A"; "T"; "N"]) "T" = Reference
     ∨ ∃ k, classify "A" (alt_alleles "A" ["A"; "T"; "N"]) "T" = Alternate (k + 1)
            ∧ alt_alleles "A" ["A"; "T"; "N"] !! k = Some "T").
Proof.
  apply (unknown_branch_unreachable "A" ["A"; "T"; "N"] "T").
  apply list_elem_of_In. simpl. right. left. reflexivity.
Defined.

(** C2, as stated, fails: a row with fewer columns than the header (two
    against four) is encoded like any other row, with its last column as
    the reference and no genotype column, and the row after it is processed
    too. *)
Lemma short_row_not_rejected :
  let header := join TAB ["pos"; "s1"; "s2"; "ref"] +:+ LF in
  let short := join TAB ["1"; "A"] +:+ LF in
  let next := join TAB ["2"; "C"; "G"; "G"] +:+ LF in
  length (split "009" (strip short)) ≠ length (split "009" (strip header))
  ∧ run (tsv_to_vcf [header; short; next] "Chr1") ""
    = (vcf_header "ref" ["s1"; "s2"]
         +:+ join TAB ["Chr1"; "1"; "."; "A"; "."; "."; "PASS"; "."; "GT"; ""] +:+ LF
         +:+ join TAB ["Chr1"; "2"; "."; "G"; "C"; "."; "PASS"; "."; "GT";
                       "1/1"; "0/0"] +:+ LF,
       Ok ()).
Proof. split; [by vm_compute | reflexivity]. Qed.

(** C2, amended.  The encoder never compares a row with the header.  A row
    of at least two columns raises nothing, whatever the header: its last
    column is the reference, the columns between the first and the last
    are the sample calls, and the run goes on after it.  A row of fewer
    than two columns has no reference column: reading it raises IndexError,
    which ends the run with nothing more written. *)
Theorem row_shape_unchecked chrom header fin1 line fin2 out out1 :
  run (tsv_to_vcf (header :: fin1) chrom) out = (out1, Ok ()) →
  let columns := length (split "009" (strip line)) in
  ((2 ≤ columns)%nat →
     ∃ position sample_bases ref_base,
       split "009" (strip line) = position :: sample_bases ++ [ref_base]
       ∧ run (tsv_to_vcf (header :: fin1 ++ line :: fin2) chrom) out
         = run (for_ fin2 (encode_line chrom))
             (if bool_decide (ref_base ∈ valid_bases)
              then out1 +:+ vcf_line chrom position ref_base sample_bases
              else out1))
  ∧ ((columns < 2)%nat →
       run (tsv_to_vcf (header :: fin1 ++ line :: fin2) chrom) out
       = (out1, Raise IndexError)).
Proof.
  intros Hpre columns. subst columns.
  rewrite tsv_to_vcf_app, Hpre.
  change (for_ (line :: fin2) (encode_line chrom))
    with (encode_line chrom line;; for_ fin2 (encode_line chrom)).
  rewrite run_bind, encode_line_run.
  destruct (split "009" (strip line)) as [|position bases] eqn:Hparts;
    [by apply split_nonempty in Hparts|].
  split.
  - intros Hlen. simpl in Hlen.
    destruct (last bases) as [ref_base|] eqn:Hlast.
    + apply last_Some in Hlast as [sample_bases ->].
      exists position, sample_bases, ref_base. split; [done|].
      rewrite slice_to_last_snoc. by case_bool_decide.
    + apply last_None in Hlast as ->. simpl in Hlen. lia.
  - intros Hlen. simpl in Hlen. destruct bases; [done|]. simpl in Hlen. lia.
Qed.

Lemma row_shape_unchecked_witness :
  let header := join TAB ["pos"; "s1"; "s2"; "ref"] +:+ LF in
  let long := join TAB ["1"; "C"; "A"; "G"; "T"; "A"] +:+ LF in
  let short := "2" +:+ LF in
  let next := join TAB ["3"; "C"; "G"; "G"] +:+ LF in
  (∃ position sample_bases ref_base,
     split "009" (strip long) = position :: sample_bases ++ [ref_base]
     ∧ run (tsv_to_vcf (header :: [] ++ long :: [next]) "Chr1") ""
       = run (for_ [next] (encode_line "Chr1"))
           (if bool_decide (ref_base ∈ valid_bases)
            then vcf_header "ref" ["s1"; "s2"]
                   +:+ vcf_line "Chr1" position ref_base sample_bases
            else vcf_header "ref" ["s1"; "s2"]))
  ∧ run (tsv_to_vcf (header :: [] ++ short :: [next]) "Chr1") ""
    = (vcf_header "ref" ["s1"; "s2"], Raise IndexError).
Proof.
  intros header long short next. split.
  - apply (row_shape_unchecked "Chr1" header [] long [next] ""
             (vcf_header "ref" ["s1"; "s2"])); [reflexivity|].
    vm_compute. lia.
  - apply (row_shape_unchecked "Chr1" header [] short [next] ""
             (vcf_header "ref" ["s1"; "s2"])); [reflexivity|].
    vm_compute. lia.
Defined.

(** A row with the position alone stops the run where it stands. *)
Example one_column_row_is_fatal :
  run (tsv_to_vcf [join TAB ["pos"; "s1"; "ref"] +:+ LF;
                   join TAB ["1"; "A"; "A"] +:+ LF;
                   "2" +:+ LF;
                   join TAB ["3"; "C"; "C"] +:+ LF] "Chr1") ""
  = (vcf_header "ref" ["s1"]
       +:+ join TAB ["Chr1"; "1"; "."; "A"; "."; "."; "PASS"; "."; "GT"; "0/0"] +:+ LF,
     Raise IndexError).
Proof. reflexivity. Qed.

(** ** The table written by the Matrix Streamer *)

Lemma string_app_nil_l (s : string) : "" +:+ s = s.
Proof. reflexivity. Qed.

Lemma string_app_cons c (s1 s2 : string) : String c s1 +:+ s2 = String c (s1 +:+ s2).
Proof. reflexivity. Qed.

Lemma string_app_assoc (s1 s2 s3 : string) : (s1 +:+ s2) +:+ s3 = s1 +:+ s2 +:+ s3.
Proof.
  induction s1 as [|c s1 IH]; [done|]. rewrite !string_app_cons. by f_equal.
Qed.

Lemma string_app_nil_r (s : string) : s +:+ "" = s.
Proof. induction s as [|c s IH]; [done|]. rewrite string_app_cons. by f_equal. Qed.

Lemma render_app (rows1 rows2 : list (list string)) :
  render (rows1 ++ rows2) = render rows1 +:+ render rows2.
Proof.
  induction rows1 as [|row rows1 IH]; simpl; [done|].
  by rewrite IH, !string_app_assoc.
Qed.

Lemma join_lines_render rows :
  rows ≠ [] → join LF (join TAB <$> rows) +:+ LF = render rows.
Proof.
  intros Hne. induction rows as [|row rows IH]; [done|].
  destruct rows as [|row' rows].
  - simpl. by rewrite string_app_nil_r.
  - change (join LF (join TAB <$> row :: row' :: rows))
      with (join TAB row +:+ LF +:+ join LF (join TAB <$> row' :: rows)).
    change (render (row :: row' :: rows))
      with (join TAB row +:+ LF +:+ render (row' :: rows)).
    rewrite <-IH by done. by rewrite !string_app_assoc.
Qed.

Lemma table_rows_length datasets lo hi :
  length (table_rows datasets lo hi) = hi - lo.
Proof. unfold table_rows. by rewrite length_fmap, length_seq. Qed.

Lemma table_rows_lookup datasets lo hi i :
  i < hi - lo →
  table_rows datasets lo hi !! i = Some (table_row datasets (lo + i)).
Proof.
  intros Hi. unfold table_rows. by rewrite list_lookup_fmap, lookup_seq_lt.
Qed.

Lemma table_rows_app datasets lo mid hi :
  lo ≤ mid → mid ≤ hi →
  (table_rows datasets lo mid ++ table_rows datasets mid hi)%list
  = table_rows datasets lo hi.
Proof.
  intros H1 H2. unfold table_rows. rewrite <-fmap_app. f_equal.
  replace (hi - lo) with ((mid - lo) + (hi - mid)) by lia.
  rewrite seq_app. do 2 f_equal. lia.
Qed.

Lemma table_rows_empty datasets lo : table_rows datasets lo lo = [].
Proof. unfold table_rows. by rewrite Nat.sub_diag. Qed.

(** *** Names and datasets *)

Lemma elem_of_sample_names accs name :
  name ∈ sample_names accs ↔ is_Some (accs !! name).
Proof.
  unfold sample_names. by rewrite sorted_Permutation, elem_of_elements, elem_of_dom.
Qed.

Lemma sample_names_nil accs : sample_names accs = [] ↔ accs = ∅.
Proof.
  unfold sample_names. split.
  - intros Hnil. apply dom_empty_inv_L, leibniz_equiv, elements_empty_inv.
    apply Permutation_nil_r. by rewrite <-Hnil, sorted_Permutation.
  - intros ->. by rewrite dom_empty_L, elements_empty.
Qed.

Lemma mapM_sample_names accs :
  mapM (λ name, accs !! name) (sample_names accs) = Some (datasets_of accs).
Proof.
  apply mapM_Some. unfold datasets_of. apply Forall2_fmap_r, Forall_Forall2_diag.
  apply Forall_forall. intros name Hname.
  apply elem_of_sample_names in Hname. simpl. by apply lookup_lookup_total.
Qed.

Lemma datasets_of_length accs : length (datasets_of accs) = length (sample_names accs).
Proof. unfold datasets_of. by rewrite length_fmap. Qed.

Lemma elem_of_datasets_of accs ds :
  ds ∈ datasets_of accs ↔ ∃ name, accs !! name = Some ds.
Proof.
  unfold datasets_of. rewrite list_elem_of_fmap. split.
  - intros (name & -> & Hname). exists name.
    apply elem_of_sample_names in Hname as [ds Hds].
    by rewrite (lookup_total_correct _ _ _ Hds).
  - intros (name & Hds). exists name. split.
    + by rewrite (lookup_total_correct _ _ _ Hds).
    + apply elem_of_sample_names. by exists ds.
Qed.

(** *** One window *)

Lemma slice_length {A} (l : list A) i j :
  length (slice i j l) = (j - i) `min` (length l - i).
Proof. unfold slice. by rewrite length_take, length_drop. Qed.

Lemma slice_lookup_total (l : list string) i j k :
  k < j - i → j ≤ length l → slice i j l !!! k = l !!! (i + k).
Proof.
  intros Hk Hj. unfold slice. rewrite !list_lookup_total_alt.
  by rewrite lookup_take_lt, lookup_drop.
Qed.

Lemma stack_rows_length (arrays : list (list string)) n :
  Forall (λ a, length a = n) arrays →
  length (foldr (zip_with cons) (replicate n []) arrays) = n.
Proof.
  induction 1 as [|a arrays Ha _ IH]; simpl.
  - apply length_replicate.
  - rewrite length_zip_with. lia.
Qed.

Lemma stack_rows_lookup (arrays : list (list string)) n i :
  Forall (λ a, length a = n) arrays → i < n →
  foldr (zip_with cons) (replicate n []) arrays !! i
  = Some ((λ a : list string, a !!! i) <$> arrays).
Proof.
  intros Hall Hi. induction Hall as [|a arrays Ha _ IH]; simpl.
  - by apply lookup_replicate_2.
  - rewrite lookup_zip_with, IH.
    rewrite (list_lookup_lookup_total_lt a i) by lia. done.
Qed.

Lemma output_chunk_ok datasets start end_ :
  datasets ≠ [] → start ≤ end_ →
  Forall (λ ds, end_ ≤ length ds) datasets →
  output_chunk datasets start end_ = Ok (table_rows datasets start end_).
Proof.
  intros Hne Hle Hlen.
  assert (Forall (λ a, length a = end_ - start) (slice start end_ <$> datasets))
    as Hslices.
  { apply Forall_fmap. eapply Forall_impl; [done|]. intros ds Hds. simpl in *.
    rewrite slice_length. lia. }
  unfold output_chunk, np_stack_axis1.
  destruct (slice start end_ <$> datasets) as [|a arrays] eqn:Harrays.
  { destruct datasets; done. }
  apply Forall_cons in Hslices as Hboth. destruct Hboth as [Ha Hrest].
  rewrite bool_decide_true
    by (eapply Forall_impl; [done|]; intros b Hb; simpl in *; congruence).
  rewrite Ha. unfold np_concatenate_axis1.
  rewrite bool_decide_true
    by by rewrite stack_rows_length, length_fmap, length_seq.
  f_equal. apply list_eq. intros i.
  destruct (decide (i < end_ - start)) as [Hi|Hi].
  - rewrite table_rows_lookup, lookup_zip_with by done.
    rewrite list_lookup_fmap, lookup_seq_lt, stack_rows_lookup by done.
    simpl. unfold table_row. do 2 f_equal.
    change (((λ b : list string, b !!! i) <$> a :: arrays)
            = ((λ ds : dataset, ds !!! (start + i)) <$> datasets)).
    rewrite <-Harrays, <-list_fmap_compose. apply Forall_fmap_ext_1.
    eapply Forall_impl; [done|]. intros ds Hds. simpl.
    by apply slice_lookup_total.
  - rewrite !lookup_ge_None_2; [done| |].
    + rewrite table_rows_length. lia.
    + rewrite length_zip_with, length_fmap, length_seq. lia.
Qed.

Lemma output_chunk_short ds0 rest start end_ :
  start < end_ → end_ ≤ length ds0 →
  Exists (λ ds, length ds < end_) rest →
  output_chunk (ds0 :: rest) start end_ = Raise ValueError.
Proof.
  intros Hlt Hds0 Hshort. unfold output_chunk, np_stack_axis1.
  rewrite fmap_cons, bool_decide_false; [done|].
  intros Hall. apply Exists_exists in Hshort as (ds & Hin & Hds).
  rewrite Forall_fmap, Forall_forall in Hall. specialize (Hall ds Hin).
  simpl in Hall. rewrite !slice_length in Hall. lia.
Qed.

(** *** The loop over the windows *)

Lemma table_rows_ge datasets lo hi : hi ≤ lo → table_rows datasets lo hi = [].
Proof. intros Hle. unfold table_rows. by replace (hi - lo) with 0 by lia. Qed.

Lemma table_rows_nonempty datasets lo hi : lo < hi → table_rows datasets lo hi ≠ [].
Proof.
  intros Hlt Hnil. apply (f_equal length) in Hnil.
  rewrite table_rows_length in Hnil. simpl in Hnil. lia.
Qed.

Section windows.
Variables (C : nat) (ds0 : dataset) (rest : list dataset).
Hypothesis C_pos : 0 < C.

Let datasets : list dataset := ds0 :: rest.
Let N : nat := length ds0.

Lemma write_chunk_ok start out :
  start < N →
  Forall (λ ds, (start + C) `min` N ≤ length ds) rest →
  run (write_chunk C datasets N start) out
  = (out +:+ render (table_rows datasets start ((start + C) `min` N)), Ok ()).
Proof.
  intros Hstart Hlen. unfold write_chunk.
  rewrite run_bind, output_chunk_ok; [| done | lia |].
  - simpl. rewrite join_lines_render; [done|].
    apply table_rows_nonempty. lia.
  - constructor; [subst N; lia | done].
Qed.

Lemma write_chunk_short start out :
  start < N →
  Exists (λ ds, length ds < (start + C) `min` N) rest →
  run (write_chunk C datasets N start) out = (out, Raise ValueError).
Proof.
  intros Hstart Hshort. unfold write_chunk.
  rewrite run_bind. subst datasets. rewrite output_chunk_short; [done| |lia|done].
  lia.
Qed.

(** No dataset shorter than the first one: every window is written. *)
Lemma windows_complete fuel start out :
  N - start ≤ fuel →
  Forall (λ ds, N ≤ length ds) rest →
  run (for_ (range_from fuel start N C) (write_chunk C datasets N)) out
  = (out +:+ render (table_rows datasets start N), Ok ()).
Proof.
  intros Hfuel Hlen. revert start out Hfuel.
  induction fuel as [|fuel IH]; intros start out Hfuel.
  - simpl. rewrite table_rows_ge by lia. simpl. by rewrite string_app_nil_r.
  - simpl. case_bool_decide as Hstart.
    + change (for_ (?x :: ?xs) ?body) with (body x;; for_ xs body).
      rewrite run_bind, write_chunk_ok; [|done|].
      * rewrite IH by lia. rewrite string_app_assoc, <-render_app.
        do 3 f_equal. destruct (decide (start + C ≤ N)) as [Hle|Hgt].
        -- rewrite Nat.min_l by done. apply table_rows_app; lia.
        -- rewrite Nat.min_r, (table_rows_ge _ (start + C)) by lia.
           by rewrite app_nil_r.
      * eapply Forall_impl; [done|]. intros ds Hds. simpl in *. lia.
    + rewrite table_rows_ge by lia. simpl. by rewrite string_app_nil_r.
Qed.

(** The shortest dataset has [m < N] elements: the windows that end at or
    before [m] are written, the next one is refused. *)
Lemma windows_short m fuel start out :
  N - start ≤ fuel → start ≤ m → m < N →
  Forall (λ ds, m ≤ length ds) rest →
  Exists (λ ds, length ds = m) rest →
  run (for_ (range_from fuel start N C) (write_chunk C datasets N)) out
  = (out +:+ render (table_rows datasets start (start + C * ((m - start) / C))),
     Raise ValueError).
Proof.
  intros Hfuel Hstart Hm Hlen Hshort. revert start out Hfuel Hstart.
  induction fuel as [|fuel IH]; intros start out Hfuel Hstart; [lia|].
  simpl. rewrite bool_decide_true by lia.
  change (for_ (?x :: ?xs) ?body) with (body x;; for_ xs body).
  rewrite run_bind. destruct (decide (m < start + C)) as [Hlt|Hge].
  - rewrite write_chunk_short.
    + rewrite Nat.div_small by lia. rewrite Nat.mul_0_r, Nat.add_0_r.
      rewrite table_rows_empty. simpl. by rewrite string_app_nil_r.
    + lia.
    + eapply Exists_impl; [done|]. intros ds Hds. simpl in *. lia.
  - rewrite write_chunk_ok; [|lia|].
    + rewrite IH by lia. rewrite string_app_assoc, <-render_app.
      do 3 f_equal. rewrite Nat.min_l by lia.
      replace (m - start) with ((m - (start + C)) + 1 * C) by lia.
      rewrite Nat.div_add by lia.
      rewrite table_rows_app; [f_equal; lia | lia | lia].
    + eapply Forall_impl; [done|]. intros ds Hds. simpl in *. lia.
Qed.
End windows.

(** *** The whole stage *)

Lemma h5_to_tsv_with_run C accs :
  run (h5_to_tsv_with C accs) "" =
    match datasets_of accs with
    | [] => ("", Raise IndexError)
    | ds0 :: _ =>
        if bool_decide (C = 0) then (header_line accs, Raise ValueError)
        else run (for_ (range 0 (length ds0) C)
                    (write_chunk C (datasets_of accs) (length ds0)))
               (header_line accs)
    end.
Proof.
  unfold h5_to_tsv_with. fold (sample_names accs).
  rewrite run_bind, mapM_sample_names. simpl.
  destruct (datasets_of accs) as [|ds0 rest]; [done|].
  simpl. by case_bool_decide.
Qed.

Lemma h5_to_tsv_with_complete C accs ds0 rest :
  0 < C → datasets_of accs = ds0 :: rest →
  Forall (λ ds, length ds0 ≤ length ds) rest →
  run (h5_to_tsv_with C accs) ""
  = (header_line accs
       +:+ render (table_rows (datasets_of accs) 0 (length ds0)), Ok ()).
Proof.
  intros HC Hds Hlen. rewrite h5_to_tsv_with_run, Hds.
  rewrite bool_decide_false by lia.
  by apply windows_complete; [|lia|].
Qed.

Lemma h5_to_tsv_with_short C accs ds0 rest m :
  0 < C → datasets_of accs = ds0 :: rest → m < length ds0 →
  Forall (λ ds, m ≤ length ds) rest →
  Exists (λ ds, length ds = m) rest →
  run (h5_to_tsv_with C accs) ""
  = (header_line accs
       +:+ render (table_rows (datasets_of accs) 0 (C * (m / C))),
     Raise ValueError).
Proof.
  intros HC Hds Hm Hlen Hshort. rewrite h5_to_tsv_with_run, Hds.
  rewrite bool_decide_false by lia. unfold range.
  rewrite (windows_short C ds0 rest HC m) by (done || lia).
  by rewrite Nat.sub_0_r.
Qed.

Lemma range_from_bound fuel start stop step x :
  x ∈ range_from fuel start stop step → start ≤ x < stop.
Proof.
  revert start. induction fuel as [|fuel IH]; intros start; simpl.
  - by intros ?%elem_of_nil.
  - case_bool_decide; [|by intros ?%elem_of_nil].
    intros [->|Hx%IH]%elem_of_cons; lia.
Qed.

Lemma slice_table_rows datasets lo hi N :
  lo ≤ hi → hi ≤ N →
  slice lo hi (table_rows datasets 0 N) = table_rows datasets lo hi.
Proof.
  intros H1 H2. unfold slice, table_rows.
  rewrite <-fmap_drop, <-fmap_take. f_equal.
  rewrite Nat.sub_0_r. apply list_eq. intros i.
  destruct (decide (i < hi - lo)) as [Hi|Hi].
  - rewrite lookup_take_lt, lookup_drop, !lookup_seq_lt by lia. f_equal; lia.
  - rewrite lookup_take_ge by lia. symmetry. apply lookup_ge_None_2.
    rewrite length_seq. lia.
Qed.

Lemma table_rows_positions datasets lo hi :
  head <$> table_rows datasets lo hi
  = (λ p, Some (str p)) <$> seq (lo + 1) (hi - lo).
Proof.
  unfold table_rows. rewrite <-list_fmap_compose.
  replace (lo + 1) with (S lo) by lia. rewrite <-fmap_S_seq, <-list_fmap_compose.
  apply list_fmap_ext. intros _ i _. simpl. do 2 f_equal. lia.
Qed.

Lemma datasets_of_nonempty accs : accs ≠ ∅ → datasets_of accs ≠ [].
Proof.
  intros Hne Hnil. apply Hne, sample_names_nil.
  apply (f_equal length) in Hnil. rewrite datasets_of_length in Hnil.
  by destruct (sample_names accs).
Qed.

(** ** Claims about the Matrix Streamer *)

(** C1, as stated, fails: arrays of lengths one and two are accepted.  The
    run succeeds and writes the one row that the first array has. *)
Lemma unequal_lengths_accepted :
  let accs : gmap string dataset := {[ "a" := ["A"]; "b" := ["A"; "C"] ]} in
  accs !! "a" = Some ["A"] ∧ accs !! "b" = Some ["A"; "C"]
  ∧ run (h5_to_tsv accs) ""
    = (join TAB ["pos"; "a"; "b"] +:+ LF +:+ join TAB ["1"; "A"; "A"] +:+ LF,
       Ok ()).
Proof. by vm_compute. Qed.

(** C1, amended.  The stage makes no length check of its own.  Let [ds0] be
    the array of the first identifier in sorted order and [m] the shortest
    length among the other arrays.  When no array is shorter than [ds0] the
    run succeeds and writes the rows of all positions of [ds0]: longer
    arrays are read up to that length only.  When [m] is less than the
    length of [ds0], stacking raises ValueError in the first window that
    ends beyond [m]: by then the header and the rows of the windows before
    it are written, [C * (m / C)] rows for the window size [C]. *)
Theorem length_mismatch_behaviour C accs ds0 rest m :
  0 < C →
  datasets_of accs = ds0 :: rest →
  Forall (λ ds, m ≤ length ds) rest →
  Exists (λ ds, length ds = m) rest →
  run (h5_to_tsv_with C accs) ""
  = if decide (length ds0 ≤ m)
    then (header_line accs
            +:+ render (table_rows (datasets_of accs) 0 (length ds0)), Ok ())
    else (header_line accs
            +:+ render (table_rows (datasets_of accs) 0 (C * (m / C))),
          Raise ValueError).
Proof.
  intros HC Hds Hlen Hshort. case_decide as Hm.
  - apply (h5_to_tsv_with_complete C accs ds0 rest); [done..|].
    eapply Forall_impl; [done|]. intros ds Hle. simpl in *. lia.
  - apply (h5_to_tsv_with_short C accs ds0 rest m); [done|done|lia|done..].
Qed.

Lemma length_mismatch_behaviour_witness :
  let accs : gmap string dataset :=
    {[ "a" := ["A"; "C"; "G"; "T"; "A"]; "b" := ["A"; "C"; "T"] ]} in
  run (h5_to_tsv_with 2 accs) ""
  = if decide (length ["A"; "C"; "G"; "T"; "A"] ≤ 3)
    then (header_line accs
            +:+ render (table_rows (datasets_of accs) 0
                          (length ["A"; "C"; "G"; "T"; "A"])), Ok ())
    else (header_line accs
            +:+ render (table_rows (datasets_of accs) 0 (2 * (3 / 2))),
          Raise ValueError).
Proof.
  intros accs.
  apply (length_mismatch_behaviour 2 accs ["A"; "C"; "G"; "T"; "A"]
           [["A"; "C"; "T"]] 3).
  - lia.
  - reflexivity.
  - repeat constructor.
  - repeat constructor.
Defined.

(** With two positions per window the third row is never written. *)
Example rows_written_before_failure :
  run (h5_to_tsv_with 2
         {[ "a" := ["A"; "C"; "G"; "T"; "A"]; "b" := ["A"; "C"; "T"] ]}) ""
  = (join TAB ["pos"; "a"; "b"] +:+ LF
       +:+ join TAB ["1"; "A"; "A"] +:+ LF
       +:+ join TAB ["2"; "C"; "C"] +:+ LF,
     Raise ValueError).
Proof. by vm_compute. Qed.

(** C4.  For a store of [N] positions (at least one sample, every array of
    length [N]) and every positive window size [C], the stage succeeds and
    writes, after the header, exactly [N] rows; their position columns are
    1, ..., [N] in this order; and the window that starts at [start]
    produces the rows of the positions [start + 1], ..., [end]. *)
Theorem streamer_complete C accs N :
  0 < C → accs ≠ ∅ → map_Forall (λ _ ds, length ds = N) accs →
  let datasets := datasets_of accs in
  let rows := table_rows datasets 0 N in
  run (h5_to_tsv_with C accs) "" = (header_line accs +:+ render rows, Ok ())
  ∧ length rows = N
  ∧ head <$> rows = (λ p, Some (str p)) <$> seq 1 N
  ∧ ∀ start, start ∈ range 0 N C →
      let end_ := (start + C) `min` N in
      output_chunk datasets start end_ = Ok (slice start end_ rows)
      ∧ head <$> slice start end_ rows
        = (λ p, Some (str p)) <$> seq (start + 1) (end_ - start).
Proof.
  intros HC Hne Hlen datasets rows.
  assert (Forall (λ ds, length ds = N) datasets) as Hall.
  { apply Forall_forall. intros ds [name Hds]%elem_of_datasets_of.
    by apply (Hlen name). }
  destruct datasets as [|ds0 rest] eqn:Hds;
    [by apply datasets_of_nonempty in Hne|].
  apply Forall_cons in Hall as [Hds0 Hrest]. subst datasets rows.
  split_and!.
  - rewrite (h5_to_tsv_with_complete C accs ds0 rest), Hds, Hds0; [done..|].
    eapply Forall_impl; [done|]. intros ds Hd. simpl in *. lia.
  - rewrite table_rows_length. lia.
  - rewrite table_rows_positions. by rewrite Nat.sub_0_r.
  - intros start [_ Hstart]%range_from_bound end_.
    rewrite slice_table_rows by lia. split.
    + apply output_chunk_ok; [done|lia|].
      constructor; [lia|]. eapply Forall_impl; [done|].
      intros ds Hd. simpl in *. lia.
    + apply table_rows_positions.
Qed.

Lemma streamer_complete_witness :
  let accs : gmap string dataset :=
    {[ "s1" := ["A"; "C"; "G"; "T"; "A"]; "s2" := ["A"; "C"; "T"; "N"; "-"] ]} in
  let datasets := datasets_of accs in
  let rows := table_rows datasets 0 5 in
  run (h5_to_tsv_with 2 accs) "" = (header_line accs +:+ render rows, Ok ())
  ∧ length rows = 5
  ∧ head <$> rows = (λ p, Some (str p)) <$> seq 1 5
  ∧ ∀ start, start ∈ range 0 5 2 →
      let end_ := (start + 2) `min` 5 in
      output_chunk datasets start end_ = Ok (slice start end_ rows)
      ∧ head <$> slice start end_ rows
        = (λ p, Some (str p)) <$> seq (start + 1) (end_ - start).
Proof.
  intros accs.
  apply (streamer_complete 2 accs 5).
  - lia.
  - intros H. apply (f_equal (λ m : gmap string dataset, m !! "s1")) in H.
    vm_compute in H. discriminate H.
  - apply map_Forall_to_list. vm_compute. repeat constructor.
Defined.

(** *** Independence of the window size *)

Lemma exists_shortest (rest : list dataset) :
  rest ≠ [] →
  ∃ m, Forall (λ ds, m ≤ length ds) rest ∧ Exists (λ ds, length ds = m) rest.
Proof.
  induction rest as [|ds rest IH]; [done|]. intros _.
  destruct rest as [|ds' rest].
  - exists (length ds). split; repeat constructor.
  - destruct IH as (m & Hall & Hex); [done|].
    destruct (decide (length ds ≤ m)) as [Hle|Hgt].
    + exists (length ds). split; [|by left].
      constructor; [done|]. eapply Forall_impl; [done|].
      intros d Hd. simpl in *. lia.
    + exists m. split; [|by right]. constructor; [lia|done].
Qed.

(** Whether the stage fails does not depend on the window size, and when it
    succeeds neither does the table. *)
Lemma h5_to_tsv_with_outcome C accs :
  0 < C →
  match datasets_of accs with
  | [] => run (h5_to_tsv_with C accs) "" = ("", Raise IndexError)
  | ds0 :: rest =>
      if decide (Forall (λ ds, length ds0 ≤ length ds) rest)
      then run (h5_to_tsv_with C accs) ""
           = (header_line accs
                +:+ render (table_rows (datasets_of accs) 0 (length ds0)), Ok ())
      else ∃ tsv, run (h5_to_tsv_with C accs) "" = (tsv, Raise ValueError)
  end.
Proof.
  intros HC. destruct (datasets_of accs) as [|ds0 rest] eqn:Hds.
  - by rewrite h5_to_tsv_with_run, Hds.
  - case_decide as Hall.
    + rewrite <-Hds. by apply (h5_to_tsv_with_complete C accs ds0 rest).
    + apply not_Forall_Exists in Hall; [|apply _].
      destruct (exists_shortest rest) as (m & Hlen & Hshort).
      { intros ->. by apply Exists_nil in Hall. }
      assert (m < length ds0) as Hm.
      { apply Exists_exists in Hall as (ds & Hin & Hds').
        rewrite Forall_forall in Hlen. specialize (Hlen ds Hin).
        simpl in *. lia. }
      eexists. by apply (h5_to_tsv_with_short C accs ds0 rest m).
Qed.

(** C5.  For every store and every two positive window sizes, the run
    ends the same way and leaves the same VCF output (none when the first
    stage fails). *)
Theorem chunk_size_invariance accs chromosome C1 C2 :
  0 < C1 → 0 < C2 →
  output_vcf (main_with C1 accs chromosome).1
  = output_vcf (main_with C2 accs chromosome).1
  ∧ (main_with C1 accs chromosome).2 = (main_with C2 accs chromosome).2.
Proof.
  intros H1 H2. unfold main_with.
  pose proof (h5_to_tsv_with_outcome C1 accs H1) as Ho1.
  pose proof (h5_to_tsv_with_outcome C2 accs H2) as Ho2.
  destruct (datasets_of accs) as [|ds0 rest].
  - by rewrite Ho1, Ho2.
  - case_decide.
    + by rewrite Ho1, Ho2.
    + destruct Ho1 as [tsv1 ->], Ho2 as [tsv2 ->]. done.
Qed.

Lemma chunk_size_invariance_witness :
  let accs : gmap string dataset :=
    {[ "s1" := ["A"; "C"; "G"; "T"; "A"]; "s2" := ["A"; "C"; "T"; "N"; "G"];
       "s3" := ["A"; "G"; "T"; "T"; "-"] ]} in
  output_vcf (main_with 2 accs "Chr1").1 = output_vcf (main_with 5 accs "Chr1").1
  ∧ (main_with 2 accs "Chr1").2 = (main_with 5 accs "Chr1").2.
Proof.
  intros accs. apply (chunk_size_invariance accs "Chr1" 2 5); lia.
Defined.

(** The same store read three positions or all positions at a time. *)
Example three_samples_any_window :
  let accs : gmap string dataset :=
    {[ "s1" := ["A"; "C"; "G"; "T"; "A"]; "s2" := ["A"; "C"; "T"; "N"; "G"];
       "s3" := ["A"; "G"; "T"; "T"; "-"] ]} in
  main_with 3 accs "Chr1" = main accs "Chr1"
  ∧ output_vcf (main accs "Chr1").1
    = Some (vcf_header "s3" ["s1"; "s2"]
        +:+ join TAB ["Chr1"; "1"; "."; "A"; "."; "."; "PASS"; "."; "GT"; "0/0"; "0/0"] +:+ LF
        +:+ join TAB ["Chr1"; "2"; "."; "G"; "C"; "."; "PASS"; "."; "GT"; "1/1"; "1/1"] +:+ LF
        +:+ join TAB ["Chr1"; "3"; "."; "T"; "G"; "."; "PASS"; "."; "GT"; "1/1"; "0/0"] +:+ LF
        +:+ join TAB ["Chr1"; "4"; "."; "T"; "."; "."; "PASS"; "."; "GT"; "0/0"; "./."] +:+ LF).
Proof. by vm_compute. Qed.

(** ** The table read back *)

Lemma string_forall_app P s1 s2 :
  string_forall P (s1 +:+ s2) = string_forall P s1 && string_forall P s2.
Proof.
  induction s1 as [|c s1 IH]; [done|].
  rewrite string_app_cons. simpl. by rewrite IH, andb_assoc.
Qed.

Lemma string_forall_impl (P Q : ascii → bool) s :
  (∀ c, P c → Q c) → string_forall P s → string_forall Q s.
Proof.
  intros HPQ. induction s as [|c s IH]; simpl; [done|].
  intros [Hc Hs]%andb_True. apply andb_True. auto.
Qed.

Lemma is_token_no_space s : is_token s → no_space s.
Proof. unfold is_token. by intros [_ ?]%andb_True. Qed.

Lemma is_token_cons s : is_token s → ∃ c s', s = String c s' ∧ isspace c = false.
Proof.
  unfold is_token. intros [Hne Hns]%andb_True.
  destruct s as [|c s']; [done|]. exists c, s'. split; [done|].
  simpl in Hns. apply andb_True in Hns as [Hc _]. by destruct (isspace c).
Qed.

Lemma no_space_no_newline s : no_space s → no_newline s.
Proof.
  apply string_forall_impl. intros c Hc.
  repeat case_bool_decide; subst; done.
Qed.

(** *** [split] after [join] *)

Lemma split_no_tab s : no_space s → split "009" s = [s].
Proof.
  induction s as [|c s IH]; simpl; [done|].
  intros [Hc Hs]%andb_True. case_bool_decide as Htab; [by subst|].
  by rewrite IH.
Qed.

Lemma split_app_tab s rest :
  no_space s → split "009" (s +:+ TAB +:+ rest) = s :: split "009" rest.
Proof.
  induction s as [|c s IH]; [done|].
  rewrite string_app_cons. simpl.
  intros [Hc Hs]%andb_True. case_bool_decide as Htab; [by subst|].
  by rewrite IH.
Qed.

Lemma join_cons_cons sep (x y : string) ys :
  join sep (x :: y :: ys) = x +:+ sep +:+ join sep (y :: ys).
Proof. reflexivity. Qed.

Lemma split_join fields :
  fields ≠ [] → Forall no_space fields → split "009" (join TAB fields) = fields.
Proof.
  intros Hne Hall. induction Hall as [|x fields Hx Hall IH]; [done|].
  destruct fields as [|y fields].
  - by apply split_no_tab.
  - rewrite join_cons_cons, split_app_tab by done. f_equal. by apply IH.
Qed.

(** *** [strip] of a line of tokens *)

Lemma rstrip_app_nonempty s t :
  rstrip t ≠ "" → rstrip (s +:+ t) = s +:+ rstrip t.
Proof.
  intros Ht. induction s as [|c s IH]; [done|].
  rewrite !string_app_cons. simpl. rewrite IH.
  destruct s as [|c' s]; [|done].
  rewrite string_app_nil_l. by destruct (rstrip t).
Qed.

Lemma rstrip_token_LF s : is_token s → rstrip (s +:+ LF) = s.
Proof.
  intros Hs%is_token_no_space. induction s as [|c s IH]; [done|].
  simpl in Hs. apply andb_True in Hs as [Hc Hs].
  rewrite string_app_cons. simpl. rewrite IH by done.
  destruct s; [|done]. by destruct (isspace c).
Qed.

Lemma join_token_nonempty sep x fields : is_token x → join sep (x :: fields) ≠ "".
Proof.
  intros (c & s & -> & _)%is_token_cons. destruct fields; [done|].
  by rewrite join_cons_cons, string_app_cons.
Qed.

Lemma rstrip_join_LF fields :
  fields ≠ [] → Forall is_token fields →
  rstrip (join TAB fields +:+ LF) = join TAB fields.
Proof.
  intros Hne Hall. induction Hall as [|x fields Hx Hall IH]; [done|].
  destruct fields as [|y fields].
  - by apply rstrip_token_LF.
  - rewrite join_cons_cons, !string_app_assoc.
    rewrite <-(string_app_assoc x), rstrip_app_nonempty; rewrite IH by done.
    + by rewrite string_app_assoc.
    + apply join_token_nonempty. by inversion Hall.
Qed.

Lemma lstrip_join fields rest :
  Forall is_token fields → fields ≠ [] →
  lstrip (join TAB fields +:+ rest) = join TAB fields +:+ rest.
Proof.
  intros Hall Hne. destruct Hall as [|x fields Hx _]; [done|].
  apply is_token_cons in Hx as (c & s & -> & Hc).
  destruct fields.
  - simpl. rewrite string_app_cons. simpl. by rewrite Hc.
  - rewrite join_cons_cons, !string_app_cons. simpl. by rewrite Hc.
Qed.

Lemma strip_line fields :
  fields ≠ [] → Forall is_token fields →
  strip (join TAB fields +:+ LF) = join TAB fields.
Proof.
  intros Hne Hall. unfold strip.
  rewrite lstrip_join by done. by apply rstrip_join_LF.
Qed.

Lemma split_strip_line fields :
  fields ≠ [] → Forall is_token fields →
  split "009" (strip (join TAB fields +:+ LF)) = fields.
Proof.
  intros Hne Hall. rewrite strip_line by done. apply split_join; [done|].
  eapply Forall_impl; [done|]. apply is_token_no_space.
Qed.

(** *** Decimal positions are tokens *)

Lemma string_of_uint_no_space d : no_space (NilEmpty.string_of_uint d).
Proof. induction d; simpl; done. Qed.

Lemma string_of_uint_nonempty d : d ≠ Decimal.Nil → NilEmpty.string_of_uint d ≠ "".
Proof. by destruct d. Qed.

Lemma little_succ_not_Nil d : Decimal.Little.succ d ≠ Decimal.Nil.
Proof. by destruct d. Qed.

Lemma to_little_uint_not_Nil n acc :
  acc ≠ Decimal.Nil → Nat.to_little_uint n acc ≠ Decimal.Nil.
Proof.
  revert acc. induction n as [|n IH]; intros acc Hacc; simpl; [done|].
  apply IH, little_succ_not_Nil.
Qed.

Lemma revapp_not_Nil d acc : acc ≠ Decimal.Nil → Decimal.revapp d acc ≠ Decimal.Nil.
Proof. revert acc. induction d; intros acc Hacc; simpl; auto. Qed.

Lemma rev_not_Nil d : d ≠ Decimal.Nil → Decimal.rev d ≠ Decimal.Nil.
Proof. unfold Decimal.rev. destruct d; [done|..]; intros _; simpl; by apply revapp_not_Nil. Qed.

Lemma str_token n : is_token (str n).
Proof.
  unfold is_token, str. apply andb_True. split.
  - apply negb_True, Is_true_false. apply String.eqb_neq.
    apply string_of_uint_nonempty, rev_not_Nil, to_little_uint_not_Nil. done.
  - apply string_of_uint_no_space.
Qed.

(** *** Lines of the table *)

Lemma translate_newlines_line s rest :
  no_newline s →
  translate_newlines (s +:+ LF +:+ rest) = s +:+ LF +:+ translate_newlines rest.
Proof.
  induction s as [|c s IH]; [done|].
  rewrite !string_app_cons. simpl.
  intros [[Hcr _]%andb_True Hs]%andb_True.
  rewrite bool_decide_false by (intros ->; by rewrite bool_decide_true in Hcr).
  by rewrite IH.
Qed.

Lemma readlines_line s rest :
  no_newline s → readlines (s +:+ LF +:+ rest) = (s +:+ LF) :: readlines rest.
Proof.
  induction s as [|c s IH]; [done|].
  rewrite !string_app_cons. simpl.
  intros [[_ Hlf]%andb_True Hs]%andb_True.
  rewrite bool_decide_false by (intros ->; by rewrite bool_decide_true in Hlf).
  by rewrite IH.
Qed.

Lemma gzip_open_rt_line s rest :
  no_newline s → gzip_open_rt (s +:+ LF +:+ rest) = (s +:+ LF) :: gzip_open_rt rest.
Proof.
  intros Hs. unfold gzip_open_rt.
  by rewrite translate_newlines_line, readlines_line.
Qed.

Lemma no_newline_join fields : Forall is_token fields → no_newline (join TAB fields).
Proof.
  induction 1 as [|x fields Hx Hall IH]; [done|].
  destruct fields as [|y fields].
  - by apply no_space_no_newline, is_token_no_space.
  - rewrite join_cons_cons. unfold no_newline. rewrite !string_forall_app.
    apply andb_True. split; [by apply no_space_no_newline, is_token_no_space|].
    apply andb_True. split; [done|apply IH].
Qed.

Lemma gzip_open_rt_render rows :
  Forall (Forall is_token) rows →
  gzip_open_rt (render rows) = (λ row, join TAB row +:+ LF) <$> rows.
Proof.
  induction 1 as [|row rows Hrow Hall IH]; [done|].
  simpl. rewrite gzip_open_rt_line by by apply no_newline_join.
  by rewrite IH.
Qed.

(** *** The encoder on a table of tokens *)

Lemma encode_line_record chrom position sample_bases ref_base out :
  Forall is_token (position :: sample_bases ++ [ref_base]) →
  run (encode_line chrom (join TAB (position :: sample_bases ++ [ref_base]) +:+ LF)) out
  = (out +:+ record chrom position ref_base sample_bases, Ok ()).
Proof.
  intros Htok. unfold record. case_bool_decide as Href.
  - by apply encode_line_emit; [apply split_strip_line|].
  - rewrite string_app_nil_r.
    by eapply encode_line_skip; [apply split_strip_line|].
Qed.

Lemma join_empty_cons (x : string) xs : join "" (x :: xs) = x +:+ join "" xs.
Proof.
  destruct xs as [|y ys]; [by rewrite string_app_nil_r|].
  by rewrite join_cons_cons.
Qed.

Lemma encode_rows chrom (samples : nat → list string) (ref : nat → string) idx out :
  Forall (λ i, Forall is_token (str (i + 1) :: samples i ++ [ref i])) idx →
  run (for_ ((λ i, join TAB (str (i + 1) :: samples i ++ [ref i]) +:+ LF) <$> idx)
         (encode_line chrom)) out
  = (out +:+ join "" ((λ i, record chrom (str (i + 1)) (ref i) (samples i)) <$> idx),
     Ok ()).
Proof.
  intros Hall. revert out.
  induction Hall as [|i idx Hi Hall IH]; intros out.
  - simpl. by rewrite string_app_nil_r.
  - rewrite !fmap_cons, join_empty_cons.
    change (for_ (?x :: ?xs) ?body) with (body x;; for_ xs body).
    rewrite run_bind, encode_line_record by done.
    by rewrite IH, string_app_assoc.
Qed.

Lemma slice_to_last_header (x : string) xs y :
  slice_to_last 1 (x :: xs ++ [y]) = xs.
Proof.
  unfold slice_to_last. simpl. rewrite length_app. simpl.
  replace (length xs + 1 - 0 - 1) with (length xs) by lia.
  apply take_app_length.
Qed.

Lemma sample_names_last_max accs (others : list string) ref_name name :
  sample_names accs = (others ++ [ref_name])%list →
  is_Some (accs !! name) → String.le name ref_name.
Proof.
  intros Hnames Hname%elem_of_sample_names.
  pose proof (sorted_Sorted (elements (dom accs))) as Hsorted.
  fold (sample_names accs) in Hsorted. rewrite Hnames in *.
  apply elem_of_app in Hname as [Hname|Hname%list_elem_of_singleton].
  - apply Sorted_StronglySorted in Hsorted; [|apply _].
    eapply StronglySorted_app_1_elem_of; [done..|]. by apply list_elem_of_singleton.
  - by subst.
Qed.

(** ** The reference track, end to end *)

Section reference_track.
Variables (accs : gmap string dataset) (N : nat).
Variables (others : list string) (ref_name : string).

(** Identifiers and calls are tokens, and every array has [N] elements. *)
Hypothesis store_tokens :
  map_Forall (λ name ds, is_token name ∧ length ds = N ∧ Forall is_token ds) accs.
Hypothesis names_sorted : sample_names accs = (others ++ [ref_name])%list.

Let ref_calls : dataset := accs !!! ref_name.

Lemma datasets_of_calls i :
  (λ ds : dataset, ds !!! i) <$> datasets_of accs
  = (calls_at accs others i ++ [ref_calls !!! i])%list.
Proof.
  unfold datasets_of, calls_at. rewrite names_sorted, <-list_fmap_compose.
  by rewrite fmap_app.
Qed.

Lemma table_row_calls i :
  table_row (datasets_of accs) i
  = str (i + 1) :: (calls_at accs others i ++ [ref_calls !!! i])%list.
Proof. unfold table_row. by rewrite datasets_of_calls. Qed.

Lemma sample_names_tokens : Forall is_token (sample_names accs).
Proof.
  apply Forall_forall. intros name [ds Hds]%elem_of_sample_names.
  by destruct (store_tokens name ds Hds).
Qed.

Lemma datasets_of_lengths : Forall (λ ds, length ds = N) (datasets_of accs).
Proof.
  apply Forall_forall. intros ds [name Hds]%elem_of_datasets_of.
  by destruct (store_tokens name ds Hds) as (_ & ? & _).
Qed.

Lemma table_row_tokens i : i < N → Forall is_token (table_row (datasets_of accs) i).
Proof.
  intros Hi. constructor; [apply str_token|].
  apply Forall_fmap, Forall_forall. intros ds [name Hds]%elem_of_datasets_of.
  destruct (store_tokens name ds Hds) as (_ & Hlen & Htok). simpl.
  rewrite Forall_forall in Htok. apply Htok.
  apply list_elem_of_lookup_total_2. lia.
Qed.

Lemma header_line_join :
  header_line accs = join TAB ("pos" :: sample_names accs) +:+ LF.
Proof.
  unfold header_line. rewrite names_sorted.
  destruct others; simpl; by rewrite ?string_app_assoc.
Qed.

Lemma h5_to_tsv_with_tokens C :
  0 < C →
  run (h5_to_tsv_with C accs) ""
  = (header_line accs +:+ render (table_rows (datasets_of accs) 0 N), Ok ()).
Proof.
  intros HC. pose proof datasets_of_lengths as Hlen.
  destruct (datasets_of accs) as [|ds0 rest] eqn:Hds.
  { apply (f_equal length) in Hds. rewrite datasets_of_length, names_sorted in Hds.
    rewrite length_app in Hds. simpl in Hds. lia. }
  apply Forall_cons in Hlen as [Hds0 Hrest].
  rewrite (h5_to_tsv_with_complete C accs ds0 rest), Hds, Hds0; [done..|].
  eapply Forall_impl; [done|]. intros ds Hd. simpl in *. lia.
Qed.

Lemma gzip_open_rt_table :
  gzip_open_rt (header_line accs +:+ render (table_rows (datasets_of accs) 0 N))
  = (join TAB ("pos" :: sample_names accs) +:+ LF)
      :: ((λ i, join TAB (str (i + 1)
                           :: (calls_at accs others i ++ [ref_calls !!! i])%list)
                +:+ LF) <$> seq 0 N).
Proof.
  rewrite header_line_join, string_app_assoc, gzip_open_rt_line.
  - f_equal. rewrite gzip_open_rt_render.
    + unfold table_rows. rewrite <-list_fmap_compose, Nat.sub_0_r.
      apply list_fmap_ext. intros _ i _. unfold compose.
      by rewrite table_row_calls.
    + unfold table_rows. apply Forall_fmap, Forall_forall.
      intros i [_ Hi]%elem_of_seq. simpl. apply table_row_tokens. lia.
  - apply no_newline_join. constructor; [done|apply sample_names_tokens].
Qed.

Lemma tsv_to_vcf_table chrom :
  run (tsv_to_vcf
         (gzip_open_rt (header_line accs
                          +:+ render (table_rows (datasets_of accs) 0 N)))
         chrom) ""
  = (vcf_header ref_name others
       +:+ join "" ((λ i, record chrom (str (i + 1)) (ref_calls !!! i)
                            (calls_at accs others i)) <$> seq 0 N),
     Ok ()).
Proof.
  rewrite gzip_open_rt_table, tsv_to_vcf_run.
  rewrite split_strip_line;
    [|done|constructor; [done|apply sample_names_tokens]].
  simpl. rewrite names_sorted.
  change ("pos" :: (others ++ [ref_name])%list)
    with ((("pos" :: others) ++ [ref_name])%list) at 1.
  rewrite last_snoc, slice_to_last_header. simpl.
  apply encode_rows. apply Forall_forall. intros i [_ Hi]%elem_of_seq.
  rewrite <-table_row_calls. apply table_row_tokens. lia.
Qed.
End reference_track.

(** For a store of [N] positions whose identifiers and calls are tokens,
    the sample whose identifier sorts last is the reference track of the
    whole run.  With [ref_name] the last identifier in sorted order and
    [others] the identifiers before it: every identifier is at most
    [ref_name]; the table has the columns [pos], [others], [ref_name] in
    this order and no further column, each row holding the calls in the
    same order; and the VCF names [ref_name] as the reference, has one
    genotype column per identifier of [others] and none for [ref_name],
    and encodes each row with the call of [ref_name] as reference base
    against the calls of [others]. *)
Theorem reference_is_last_sorted C accs N chromosome others ref_name :
  0 < C →
  map_Forall (λ name ds, is_token name ∧ length ds = N ∧ Forall is_token ds) accs →
  sorted (elements (dom accs)) = (others ++ [ref_name])%list →
  let ref_calls : dataset := accs !!! ref_name in
  let rows :=
    (λ i, str (i + 1) :: (calls_at accs others i ++ [ref_calls !!! i])%list)
      <$> seq 0 N in
  let tsv := join TAB ("pos" :: (others ++ [ref_name])%list) +:+ LF +:+ render rows in
  let vcf :=
    vcf_header ref_name others
      +:+ join "" ((λ i, record chromosome (str (i + 1)) (ref_calls !!! i)
                           (calls_at accs others i)) <$> seq 0 N) in
  (∀ name, is_Some (accs !! name) → String.le name ref_name)
  ∧ run (h5_to_tsv_with C accs) "" = (tsv, Ok ())
  ∧ main_with C accs chromosome = (Files (Some tsv) (Some vcf), Ok ()).
Proof.
  intros HC Htok Hnames ref_calls rows tsv vcf.
  assert (tsv = header_line accs +:+ render (table_rows (datasets_of accs) 0 N))
    as Htsv.
  { subst tsv rows. rewrite (header_line_join accs others ref_name Hnames).
    fold (sample_names accs) in Hnames. rewrite Hnames, string_app_assoc.
    do 3 f_equal. unfold table_rows. rewrite Nat.sub_0_r.
    apply list_fmap_ext. intros _ i _.
    by rewrite (table_row_calls accs others ref_name Hnames). }
  assert (run (h5_to_tsv_with C accs) "" = (tsv, Ok ())) as Hstage1.
  { rewrite Htsv. by apply (h5_to_tsv_with_tokens accs N others ref_name). }
  split_and!.
  - intros name. by apply (sample_names_last_max accs others).
  - done.
  - unfold main_with. rewrite Hstage1, Htsv.
    by rewrite (tsv_to_vcf_table accs N others ref_name Htok Hnames).
Qed.

Lemma reference_is_last_sorted_witness :
  let accs : gmap string dataset :=
    {[ "s2" := ["A"; "C"; "T"; "N"; "G"]; "s10" := ["A"; "C"; "G"; "T"; "A"];
       "TAIR10" := ["A"; "G"; "T"; "T"; "-"] ]} in
  let others := ["TAIR10"; "s10"] in
  let ref_name := "s2" in
  let ref_calls : dataset := accs !!! ref_name in
  let rows :=
    (λ i, str (i + 1) :: (calls_at accs others i ++ [ref_calls !!! i])%list)
      <$> seq 0 5 in
  let tsv := join TAB ("pos" :: (others ++ [ref_name])%list) +:+ LF +:+ render rows in
  let vcf :=
    vcf_header ref_name others
      +:+ join "" ((λ i, record "Chr1" (str (i + 1)) (ref_calls !!! i)
                           (calls_at accs others i)) <$> seq 0 5) in
  (∀ name, is_Some (accs !! name) → String.le name ref_name)
  ∧ run (h5_to_tsv_with 2 accs) "" = (tsv, Ok ())
  ∧ main_with 2 accs "Chr1" = (Files (Some tsv) (Some vcf), Ok ()).
Proof.
  intros accs others ref_name.
  apply (reference_is_last_sorted 2 accs 5 "Chr1" others ref_name).
  - lia.
  - apply map_Forall_to_list. vm_compute. repeat constructor.
  - reflexivity.
Defined.

(** The store of the witness, run: the identifier that sorts last, [s2],
    is the reference although [TAIR10] is in the store. *)
Example last_sorted_sample_is_reference :
  main {[ "s2" := ["A"; "C"; "T"; "N"; "G"]; "s10" := ["A"; "C"; "G"; "T"; "A"];
          "TAIR10" := ["A"; "G"; "T"; "T"; "-"] ]} "Chr1"
  = (Files
       (Some (join TAB ["pos"; "TAIR10"; "s10"; "s2"] +:+ LF
              +:+ join TAB ["1"; "A"; "A"; "A"] +:+ LF
              +:+ join TAB ["2"; "G"; "C"; "C"] +:+ LF
              +:+ join TAB ["3"; "T"; "G"; "T"] +:+ LF
              +:+ join TAB ["4"; "T"; "T"; "N"] +:+ LF
              +:+ join TAB ["5"; "-"; "A"; "G"] +:+ LF))
       (Some (vcf_header "s2" ["TAIR10"; "s10"]
              +:+ join TAB ["Chr1"; "1"; "."; "A"; "."; "."; "PASS"; "."; "GT"; "0/0"; "0/0"] +:+ LF
              +:+ join TAB ["Chr1"; "2"; "."; "C"; "G"; "."; "PASS"; "."; "GT"; "1/1"; "0/0"] +:+ LF
              +:+ join TAB ["Chr1"; "3"; "."; "T"; "G"; "."; "PASS"; "."; "GT"; "0/0"; "1/1"] +:+ LF
              +:+ join TAB ["Chr1"; "5"; "."; "G"; "A"; "."; "PASS"; "."; "GT"; "./."; "1/1"] +:+ LF)),
     Ok ()).
Proof. by vm_compute. Qed.

(** C10, at a failing input.  In the store with the samples [a], [b], [c]
    and the calls [C], [A] and a blank, [c] sorts last and is named as the
    reference in the header, with [a] and [b] as the sample columns; but
    the record of position 1 has the call [A] of [b] as its reference
    base and one genotype column only, that of [a]: the last value of the
    row is not the one taken as the reference base. *)
Theorem blank_call_shifts_reference :
  let accs : gmap string dataset := {[ "a" := ["C"]; "b" := ["A"]; "c" := [" "] ]} in
  sorted (elements (dom accs)) = ["a"; "b"; "c"]
  ∧ main accs "Chr1"
    = (Files
         (Some (join TAB ["pos"; "a"; "b"; "c"] +:+ LF
                +:+ join TAB ["1"; "C"; "A"; " "] +:+ LF))
         (Some (vcf_header "c" ["a"; "b"]
                +:+ join TAB ["Chr1"; "1"; "."; "A"; "C"; "."; "PASS"; "."; "GT";
                              "1/1"] +:+ LF)),
       Ok ()).
Proof. split; by vm_compute. Qed.

(** * Further properties *)

(** ** File names *)

Lemma rfind_bounds c s : (-1 ≤ rfind c s < Z.of_nat (String.length s))%Z.
Proof.
  induction s as [|d s IH]; simpl; [lia|].
  repeat case_bool_decide; lia.
Qed.

Lemma rfind_no_char c s : no_char c s → rfind c s = (-1)%Z.
Proof.
  induction s as [|d s IH]; simpl; [done|].
  intros [Hd Hs]%andb_True. rewrite IH by done. simpl.
  rewrite bool_decide_false; [done|].
  intros ->. by rewrite bool_decide_true in Hd.
Qed.

Lemma string_length_app (s1 s2 : string) :
  String.length (s1 +:+ s2) = String.length s1 + String.length s2.
Proof.
  induction s1 as [|c s1 IH]; [done|]. rewrite string_app_cons. simpl. by rewrite IH.
Qed.

Lemma rfind_app_no_char c s1 s2 :
  no_char c s2 → rfind c (s1 +:+ s2) = rfind c s1.
Proof.
  intros Hs2. induction s1 as [|d s1 IH].
  - rewrite string_app_nil_l. by apply rfind_no_char.
  - rewrite string_app_cons. simpl. by rewrite IH.
Qed.

Lemma rfind_app_here c s1 s2 :
  no_char c s2 → rfind c (s1 +:+ String c s2) = Z.of_nat (String.length s1).
Proof.
  intros Hs2. induction s1 as [|d s1 IH].
  - rewrite string_app_nil_l. simpl. rewrite rfind_no_char by done. simpl.
    by rewrite bool_decide_true.
  - rewrite string_app_cons. simpl. rewrite IH.
    rewrite bool_decide_true by lia. lia.
Qed.

Lemma str_take_drop n s : str_take n s +:+ str_drop n s = s.
Proof.
  revert s. induction n as [|n IH]; intros [|c s]; simpl; try done.
  rewrite string_app_cons. by rewrite IH.
Qed.

Lemma str_take_app (s1 s2 : string) : str_take (String.length s1) (s1 +:+ s2) = s1.
Proof.
  induction s1 as [|c s1 IH]; [by destruct s2|].
  rewrite string_app_cons. simpl. by rewrite IH.
Qed.

Lemma str_drop_app (s1 s2 : string) : str_drop (String.length s1) (s1 +:+ s2) = s2.
Proof.
  induction s1 as [|c s1 IH]; [by destruct s2|].
  rewrite string_app_cons. simpl. by rewrite IH.
Qed.

Lemma rfind_none_no_char c s : (rfind c s < 0)%Z → no_char c s.
Proof.
  induction s as [|d s IH]; [done|]. simpl.
  pose proof (rfind_bounds c s).
  repeat case_bool_decide; try lia. intros _.
  apply andb_True. split; [by rewrite bool_decide_false|]. apply IH. lia.
Qed.

(** From the last occurrence of [c] on, [s] is [c] followed by a string
    without [c]. *)
Lemma str_drop_rfind c s :
  (0 ≤ rfind c s)%Z →
  ∃ rest, str_drop (Z.to_nat (rfind c s)) s = String c rest ∧ no_char c rest.
Proof.
  induction s as [|d s IH]; simpl; [lia|].
  case_bool_decide as Hr.
  - intros _. destruct (IH Hr) as (rest & Hrest & Hno). exists rest.
    replace (Z.to_nat (rfind c s + 1)) with (S (Z.to_nat (rfind c s))) by lia.
    done.
  - case_bool_decide as Hd; [|lia]. intros _. subst d. exists s. split; [done|].
    apply rfind_none_no_char. lia.
Qed.

(** After the last occurrence of [c], [c] does not occur. *)
Lemma no_char_str_drop_after c n s :
  (rfind c s < Z.of_nat n)%Z → no_char c (str_drop n s).
Proof.
  revert n. induction s as [|d s IH]; intros n; [by destruct n|].
  destruct n as [|n].
  - intros Hn. change (str_drop 0 (String d s)) with (String d s).
    apply rfind_none_no_char. lia.
  - simpl. intros Hn. apply IH. pose proof (rfind_bounds c s).
    repeat case_bool_decide; lia.
Qed.

Lemma splitext_scan_Some fuel p filenameIndex dotIndex r :
  splitext_scan fuel p filenameIndex dotIndex = Some r →
  r = (str_take dotIndex p, str_drop dotIndex p).
Proof.
  revert filenameIndex. induction fuel as [|fuel IH]; intros i; simpl; [done|].
  case_bool_decide; [|done].
  destruct (negb _); [by intros [= <-]|apply IH].
Qed.

(** The two parts of [splitext] give back the path; the extension is empty
    or starts with a dot, and holds no slash. *)
Lemma splitext_parts p :
  p = (splitext p).1 +:+ (splitext p).2
  ∧ ((splitext p).2 = "" ∨ ∃ e, (splitext p).2 = String "." e)
  ∧ no_char "/" (splitext p).2.
Proof.
  unfold splitext. case_bool_decide as Hdot.
  - destruct (splitext_scan _ _ _ _) as [r|] eqn:Hscan.
    + apply splitext_scan_Some in Hscan as ->. simpl.
      pose proof (rfind_bounds "/" p) as Hsep. split_and!.
      * by rewrite str_take_drop.
      * right. destruct (str_drop_rfind "." p) as (e & -> & _); [lia|]. by exists e.
      * apply no_char_str_drop_after. lia.
    + simpl. rewrite string_app_nil_r. auto.
  - simpl. rewrite string_app_nil_r. auto.
Qed.

Lemma string_app_inv_head (s t1 t2 : string) : s +:+ t1 = s +:+ t2 → t1 = t2.
Proof.
  induction s as [|c s IH]; [done|]. rewrite !string_app_cons. intros [= H]. auto.
Qed.

Lemma no_char_app c (s1 s2 : string) :
  no_char c (s1 +:+ s2) = no_char c s1 && no_char c s2.
Proof. apply string_forall_app. Qed.

Lemma no_char_app_2 c (s1 s2 : string) :
  no_char c s1 → no_char c s2 → no_char c (s1 +:+ s2).
Proof. intros H1 H2. rewrite no_char_app. by apply andb_True. Qed.

(** The intermediate table never has the name of the output: it is the
    output name with its last one or two extensions, which hold no slash,
    replaced by [_temp.tsv.gz], so it lies in the directory of the output
    and its name ends in [.gz]. *)
Theorem intermediate_name_differs output_vcf :
  intermediate_tsv_name output_vcf ≠ output_vcf
  ∧ endswith ".gz" (intermediate_tsv_name output_vcf)
  ∧ ∃ base_name extensions,
      output_vcf = base_name +:+ extensions
      ∧ no_char "/" extensions
      ∧ intermediate_tsv_name output_vcf = base_name +:+ "_temp.tsv.gz".
Proof.
  assert (∃ base_name extensions,
      output_vcf = base_name +:+ extensions
      ∧ no_char "/" extensions
      ∧ (extensions = "" ∨ ∃ e, extensions = String "." e)
      ∧ intermediate_tsv_name output_vcf = base_name +:+ "_temp.tsv.gz")
    as (base_name & extensions & Hout & Hslash & Hext & Hname).
  { unfold intermediate_tsv_name.
    destruct (splitext_parts output_vcf) as (Hp1 & He1 & Hs1).
    destruct (endswith ".vcf" (splitext output_vcf).1).
    - destruct (splitext_parts (splitext output_vcf).1) as (Hp2 & He2 & Hs2).
      exists (splitext (splitext output_vcf).1).1,
        ((splitext (splitext output_vcf).1).2 +:+ (splitext output_vcf).2).
      split_and!; [|by apply no_char_app_2| |done].
      + by rewrite <-string_app_assoc, <-Hp2.
      + destruct He2 as [->|[e ->]]; [by rewrite string_app_nil_l|].
        right. eexists. by rewrite string_app_cons.
    - by exists (splitext output_vcf).1, (splitext output_vcf).2. }
  split_and!.
  - rewrite Hname. intros Heq. rewrite Hout in Heq.
    apply string_app_inv_head in Heq.
    destruct Hext as [->|[e ->]]; discriminate.
  - rewrite Hname. unfold endswith.
    rewrite string_length_app. apply andb_True. split.
    + apply bool_decide_pack. simpl. lia.
    + replace (String.length base_name + String.length "_temp.tsv.gz"
               - String.length ".gz") with (String.length (base_name +:+ "_temp.tsv"))
        by (rewrite string_length_app; simpl; lia).
      change "_temp.tsv.gz" with ("_temp.tsv" +:+ ".gz").
      rewrite <-string_app_assoc, str_drop_app. done.
  - by exists base_name, extensions.
Qed.

(** *** The names of the usual outputs *)

Lemma endswith_inv suffix s : endswith suffix s → ∃ root, s = root +:+ suffix.
Proof.
  unfold endswith. intros [_ Heq]%andb_True.
  apply Is_true_true, String.eqb_eq in Heq.
  set (n := String.length s - String.length suffix) in *.
  exists (str_take n s). rewrite <-Heq. by rewrite str_take_drop.
Qed.

Lemma endswith_app root suffix : endswith suffix (root +:+ suffix).
Proof.
  unfold endswith. rewrite string_length_app. apply andb_True. split.
  - apply bool_decide_pack. lia.
  - replace (String.length root + String.length suffix - String.length suffix)
      with (String.length root) by lia.
    rewrite str_drop_app. apply Is_true_true, String.eqb_refl.
Qed.

Section usual_names.
Variables dir name : string.

(** [dir] is empty or ends with a slash; [name] holds no slash and does not
    start with a dot. *)
Hypothesis dir_ends : dir = "" ∨ ∃ d, dir = d +:+ "/".
Hypothesis name_start : ∃ c name', name = String c name' ∧ c ≠ "."%char.
Hypothesis name_no_slash : no_char "/" name.

Lemma rfind_slash_dir rest :
  no_char "/" rest →
  rfind "/" (dir +:+ rest) = (Z.of_nat (String.length dir) - 1)%Z.
Proof.
  intros Hrest. rewrite rfind_app_no_char by done.
  destruct dir_ends as [->|[d ->]]; [done|].
  rewrite rfind_app_here by done. rewrite string_length_app. simpl. lia.
Qed.

Lemma splitext_extension e :
  plain e →
  splitext (dir +:+ name +:+ String "." e) = (dir +:+ name, String "." e).
Proof.
  intros [Hdot Hslash]%andb_True. unfold splitext.
  rewrite rfind_slash_dir by (by apply no_char_app_2).
  rewrite <-string_app_assoc, rfind_app_here by done.
  destruct name_start as (c & name' & Hname & Hc).
  rewrite string_length_app, Hname. simpl String.length.
  rewrite bool_decide_true by lia.
  replace (Z.to_nat (Z.of_nat (String.length dir) - 1 + 1))
    with (String.length dir) by lia.
  replace (Z.to_nat (Z.of_nat (String.length dir + S (String.length name'))
                     - (Z.of_nat (String.length dir) - 1)))
    with (S (S (String.length name'))) by lia.
  rewrite Nat2Z.id. simpl splitext_scan.
  rewrite bool_decide_true by lia.
  rewrite string_app_assoc, str_drop_app, string_app_cons. simpl str_take.
  assert (String.eqb (String c "") "." = false) as ->.
  { apply String.eqb_neq. congruence. }
  simpl negb. cbv iota.
  rewrite <-string_app_cons, <-string_app_assoc.
  replace (String.length dir + S (String.length name'))
    with (String.length (dir +:+ String c name'))
    by (rewrite string_length_app; done).
  by rewrite str_take_app, str_drop_app.
Qed.
End usual_names.

Lemma plain_start stem :
  plain stem → stem ≠ "" →
  (∃ c stem', stem = String c stem' ∧ c ≠ "."%char) ∧ no_char "/" stem ∧ no_char "." stem.
Proof.
  intros [Hdot Hslash]%andb_True Hne. destruct stem as [|c stem']; [done|].
  split_and!; [|done..]. exists c, stem'. split; [done|].
  simpl in Hdot. apply andb_True in Hdot as [Hc _].
  intros ->. by rewrite bool_decide_true in Hc.
Qed.

Lemma rfind_dot_dir dir stem :
  dir = "" ∨ (∃ d, dir = d +:+ "/") → no_char "." stem →
  (rfind "." (dir +:+ stem) < Z.of_nat (String.length dir))%Z
  ∧ (dir ≠ "" → rfind "." (dir +:+ stem) < Z.of_nat (String.length dir) - 1)%Z.
Proof.
  intros Hdir Hstem. rewrite rfind_app_no_char by done.
  destruct Hdir as [->|[d ->]]; [done|].
  rewrite rfind_app_no_char by done. rewrite string_length_app. simpl.
  pose proof (rfind_bounds "." d). lia.
Qed.

Lemma splitext_no_extension dir stem :
  dir = "" ∨ (∃ d, dir = d +:+ "/") → plain stem →
  splitext (dir +:+ stem) = (dir +:+ stem, "").
Proof.
  intros Hdir [Hdot Hslash]%andb_True. unfold splitext.
  rewrite rfind_slash_dir by done.
  destruct (rfind_dot_dir dir stem Hdir Hdot) as [Hlt Hlt'].
  rewrite bool_decide_false; [done|].
  destruct (decide (dir = "")) as [->|Hne]; [|specialize (Hlt' Hne); lia].
  rewrite string_app_nil_l, rfind_no_char by done. simpl. lia.
Qed.

Lemma not_endswith_vcf dir stem :
  dir = "" ∨ (∃ d, dir = d +:+ "/") → plain stem → stem ≠ "" →
  endswith ".vcf" (dir +:+ stem) = false.
Proof.
  intros Hdir Hplain Hne.
  destruct (endswith ".vcf" (dir +:+ stem)) eqn:Hends; [|done]. exfalso.
  apply Is_true_true, endswith_inv in Hends as [root Hroot].
  apply andb_True in Hplain as [Hdot Hslash].
  pose proof (rfind_slash_dir dir Hdir stem Hslash) as Hsep.
  destruct (rfind_dot_dir dir stem Hdir Hdot) as [Hlt Hlt'].
  rewrite Hroot in Hsep, Hlt, Hlt'.
  rewrite (rfind_app_here "." root "vcf") in Hlt, Hlt' by done.
  rewrite (rfind_app_no_char "/" root ".vcf") in Hsep by done.
  pose proof (rfind_bounds "/" root).
  destruct (decide (dir = "")) as [->|Hd]; [simpl in *; lia|].
  specialize (Hlt' Hd). lia.
Qed.

(** For an output [dir/stem] with a plain [stem], the outputs [stem],
    [stem.e] and [stem.vcf.e] for any plain extension [e] (so [stem.vcf],
    [stem.gz] and [stem.vcf.gz] among them) all take the same intermediate
    table [dir/stem_temp.tsv.gz]. *)
Theorem intermediate_name_of_usual_outputs dir stem e :
  dir = "" ∨ (∃ d, dir = d +:+ "/") →
  plain stem → stem ≠ "" → plain e →
  intermediate_tsv_name (dir +:+ stem) = dir +:+ stem +:+ "_temp.tsv.gz"
  ∧ intermediate_tsv_name (dir +:+ stem +:+ "." +:+ e)
    = dir +:+ stem +:+ "_temp.tsv.gz"
  ∧ intermediate_tsv_name (dir +:+ stem +:+ ".vcf." +:+ e)
    = dir +:+ stem +:+ "_temp.tsv.gz".
Proof.
  intros Hdir Hstem Hne He.
  destruct (plain_start stem Hstem Hne) as ((c & stem' & Hc & Hcdot) & Hslash & Hdot).
  assert (splitext (dir +:+ stem +:+ String "." "vcf") = (dir +:+ stem, ".vcf"))
    as Hvcf.
  { apply splitext_extension; [done| |done..]. by exists c, stem'. }
  unfold intermediate_tsv_name. split_and!.
  - rewrite splitext_no_extension by done. simpl.
    rewrite not_endswith_vcf by done. by rewrite string_app_assoc.
  - change ("." +:+ e) with (String "." e).
    rewrite splitext_extension; [|done| |done..]; [|by exists c, stem'].
    simpl. rewrite not_endswith_vcf by done. by rewrite string_app_assoc.
  - change (".vcf." +:+ e) with (".vcf" +:+ String "." e).
    rewrite <-(string_app_assoc stem).
    rewrite splitext_extension; [|done| | |done].
    + simpl. rewrite <-string_app_assoc.
      rewrite (Is_true_true_1 _ (endswith_app (dir +:+ stem) ".vcf")).
      rewrite string_app_assoc. change (".vcf") with (String "." "vcf").
      rewrite Hvcf. simpl. by rewrite string_app_assoc.
    + exists c, (stem' +:+ ".vcf"). by rewrite Hc.
    + by apply no_char_app_2.
Qed.

Lemma intermediate_name_of_usual_outputs_witness :
  intermediate_tsv_name ("results/" +:+ "chr5") = "results/" +:+ "chr5" +:+ "_temp.tsv.gz"
  ∧ intermediate_tsv_name ("results/" +:+ "chr5" +:+ "." +:+ "gz")
    = "results/" +:+ "chr5" +:+ "_temp.tsv.gz"
  ∧ intermediate_tsv_name ("results/" +:+ "chr5" +:+ ".vcf." +:+ "gz")
    = "results/" +:+ "chr5" +:+ "_temp.tsv.gz".
Proof.
  apply (intermediate_name_of_usual_outputs "results/" "chr5" "gz").
  - right. exists "results". reflexivity.
  - reflexivity.
  - discriminate.
  - reflexivity.
Defined.

(** ** The encoder on any table *)

Lemma encode_line_fields chrom line out :
  run (encode_line chrom line) out =
    if decide (2 ≤ length (line_fields line))
    then (out +:+ line_record chrom line, Ok ())
    else (out, Raise IndexError).
Proof.
  rewrite encode_line_run. unfold line_record, line_fields, record.
  destruct (split "009" (strip line)) as [|position bases] eqn:Hparts;
    [by apply split_nonempty in Hparts|].
  destruct (last bases) as [ref_base|] eqn:Hlast.
  - apply last_Some in Hlast as [sample_bases ->].
    rewrite decide_True by (simpl; rewrite length_app; simpl; lia).
    case_bool_decide; [done|]. by rewrite string_app_nil_r.
  - apply last_None in Hlast as ->. by rewrite decide_False by (simpl; lia).
Qed.

Lemma encode_lines_ok chrom fin out :
  Forall (λ line, 2 ≤ length (line_fields line)) fin →
  run (for_ fin (encode_line chrom)) out
  = (out +:+ join "" (line_record chrom <$> fin), Ok ()).
Proof.
  intros Hall. revert out. induction Hall as [|line fin Hline Hall IH]; intros out.
  - simpl. by rewrite string_app_nil_r.
  - rewrite fmap_cons, join_empty_cons.
    change (for_ (?x :: ?xs) ?body) with (body x;; for_ xs body).
    rewrite run_bind, encode_line_fields, decide_True by done.
    by rewrite IH, string_app_assoc.
Qed.

Lemma encode_lines_fail chrom fin out :
  ¬ Forall (λ line, 2 ≤ length (line_fields line)) fin →
  (run (for_ fin (encode_line chrom)) out).2 = Raise IndexError.
Proof.
  revert out. induction fin as [|line fin IH]; intros out Hnot.
  - destruct Hnot. constructor.
  - change (for_ (?x :: ?xs) ?body) with (body x;; for_ xs body).
    rewrite run_bind, encode_line_fields. case_decide as Hline; [|done].
    apply IH. intros Hall. apply Hnot. by constructor.
Qed.

Lemma tsv_to_vcf_run_any fin chrom out :
  run (tsv_to_vcf fin chrom) out =
    let header := line_fields (default "" (head fin)) in
    run (for_ (tail fin) (encode_line chrom))
      (out +:+ vcf_header (default "" (last header)) (slice_to_last 1 header)).
Proof.
  unfold tsv_to_vcf, line_fields. simpl.
  destruct (last (split "009" (strip (default "" (head fin))))) as [ref_name|] eqn:Hlast.
  - done.
  - apply last_None in Hlast. by apply split_nonempty in Hlast.
Qed.

(** The encoder succeeds exactly when every line after the first has at
    least two cells, whatever the cells hold; it then writes the four header
    lines, made from the first line (from the empty string when the table
    is empty), followed by the record of each line whose last cell is a
    canonical base, in order.  Its only failure is IndexError, and the
    header lines are written even then. *)
Theorem encoder_outcome fin chrom out :
  let header := line_fields (default "" (head fin)) in
  let head_lines := vcf_header (default "" (last header)) (slice_to_last 1 header) in
  let shaped := Forall (λ line, 2 ≤ length (line_fields line)) (tail fin) in
  ((run (tsv_to_vcf fin chrom) out).2 = Ok () ↔ shaped)
  ∧ (shaped →
       run (tsv_to_vcf fin chrom) out
       = (out +:+ head_lines +:+ join "" (line_record chrom <$> tail fin), Ok ()))
  ∧ (¬ shaped →
       (run (tsv_to_vcf fin chrom) out).2 = Raise IndexError
       ∧ ∃ records, (run (tsv_to_vcf fin chrom) out).1
                    = out +:+ head_lines +:+ records).
Proof.
  intros header head_lines shaped. rewrite tsv_to_vcf_run_any. cbv zeta.
  fold header. fold head_lines.
  assert (shaped →
    run (for_ (tail fin) (encode_line chrom)) (out +:+ head_lines)
    = (out +:+ head_lines +:+ join "" (line_record chrom <$> tail fin), Ok ()))
    as Hok.
  { intros Hall. rewrite encode_lines_ok by done. by rewrite string_app_assoc. }
  assert (∀ lines o, ∃ records,
            (run (for_ lines (encode_line chrom)) o).1 = o +:+ records) as Happend.
  { induction lines as [|line lines IH]; intros o.
    - exists "". simpl. by rewrite string_app_nil_r.
    - change (for_ (?x :: ?xs) ?body) with (body x;; for_ xs body).
      rewrite run_bind, encode_line_fields. case_decide.
      + destruct (IH (o +:+ line_record chrom line)) as [records ->].
        exists (line_record chrom line +:+ records). by rewrite string_app_assoc.
      + exists "". simpl. by rewrite string_app_nil_r. }
  split_and!.
  - split.
    + intros Hrun. destruct (decide shaped) as [|Hnot]; [done|].
      apply (encode_lines_fail chrom _ (out +:+ head_lines)) in Hnot.
      congruence.
    + intros Hall. by rewrite Hok.
  - done.
  - intros Hnot. split; [by apply encode_lines_fail|].
    destruct (Happend (tail fin) (out +:+ head_lines)) as [records ->].
    exists records. by rewrite string_app_assoc.
Qed.

(** A table that ends in an empty line stops the encoder after the records
    before it. *)
Example trailing_empty_line_is_fatal :
  run (tsv_to_vcf [join TAB ["pos"; "s1"; "ref"] +:+ LF;
                   join TAB ["1"; "C"; "A"] +:+ LF;
                   LF] "Chr1") ""
  = (vcf_header "ref" ["s1"]
       +:+ join TAB ["Chr1"; "1"; "."; "A"; "C"; "."; "PASS"; "."; "GT"; "1/1"] +:+ LF,
     Raise IndexError).
Proof. reflexivity. Qed.

(** ** Alternate alleles and genotype codes of a record *)

Lemma alt_alleles_length ref_base sample_bases :
  ref_base ∈ valid_bases → length (alt_alleles ref_base sample_bases) ≤ 3.
Proof.
  intros Href.
  assert (∃ k, length k = 3 ∧ ∀ b, b ∈ valid_bases → b ≠ ref_base → b ∈ k)
    as (k & Hk & Hin).
  { apply elem_of_valid_bases in Href as [-> | [-> | [-> | ->]]];
      [exists ["C"; "G"; "T"] | exists ["A"; "G"; "T"]
      | exists ["A"; "C"; "T"] | exists ["A"; "C"; "G"]];
      (split; [done|]); intros b Hb Hne;
      apply elem_of_valid_bases in Hb as [-> | [-> | [-> | ->]]];
      try done; rewrite !elem_of_cons; auto. }
  rewrite <-Hk. apply submseteq_length, NoDup_submseteq.
  - apply alt_alleles_NoDup.
  - intros b (_ & Hb & Hne)%elem_of_alt_alleles. by apply Hin.
Qed.

Lemma index_lt x l i : index x l = Some i → i < length l.
Proof. intros Hi%index_Some. by eapply lookup_lt_Some. Qed.

Lemma genotypes_in_alphabet ref_base sample_bases :
  ref_base ∈ valid_bases →
  Forall (λ code, code ∈ ["./."; "0/0"; "1/1"; "2/2"; "3/3"])
    (genotypes ref_base sample_bases).
Proof.
  intros Href. pose proof (alt_alleles_length ref_base sample_bases Href) as Hlen.
  unfold genotypes. apply Forall_fmap, Forall_forall.
  intros base _. simpl. unfold classify.
  destruct (_ || _); [rewrite !elem_of_cons; auto|].
  case_bool_decide; [rewrite !elem_of_cons; auto|].
  destruct (index base _) as [i|] eqn:Hi; [|rewrite !elem_of_cons; auto].
  apply index_lt in Hi.
  destruct i as [|[|[|i]]]; [| | |lia]; rewrite !elem_of_cons; auto 6.
Qed.

(** In a record, at most three alternates are listed and every genotype
    column is one of [./.], [0/0], [1/1], [2/2], [3/3]. *)
Theorem genotype_codes_alphabet ref_base sample_bases :
  ref_base ∈ valid_bases →
  length (alt_alleles ref_base sample_bases) ≤ 3
  ∧ Forall (λ code, code ∈ ["./."; "0/0"; "1/1"; "2/2"; "3/3"])
      (genotypes ref_base sample_bases).
Proof.
  intros Href. split.
  - by apply alt_alleles_length.
  - by apply genotypes_in_alphabet.
Qed.

Lemma genotype_codes_alphabet_witness :
  length (alt_alleles "A" ["T"; "G"; "C"; "N"; "A"]) ≤ 3
  ∧ Forall (λ code, code ∈ ["./."; "0/0"; "1/1"; "2/2"; "3/3"])
      (genotypes "A" ["T"; "G"; "C"; "N"; "A"]).
Proof.
  apply (genotype_codes_alphabet "A" ["T"; "G"; "C"; "N"; "A"]).
  apply elem_of_valid_bases. left. reflexivity.
Defined.

(** The alternate list of a row is in strictly ascending order; its members
    are exactly the canonical bases, other than the reference, that some
    sample of the row carries. *)
Theorem alt_alleles_ascending ref_base sample_bases :
  let alts := alt_alleles ref_base sample_bases in
  (∀ i j a b, i < j → alts !! i = Some a → alts !! j = Some b →
     String.le a b ∧ a ≠ b)
  ∧ ∀ b, b ∈ alts ↔ b ∈ sample_bases ∧ b ∈ valid_bases ∧ b ≠ ref_base.
Proof.
  intros alts. split; [|intros b; apply elem_of_alt_alleles].
  intros i j a b Hij Ha Hb. split.
  - pose proof (sorted_Sorted (elements (list_to_set
      (filter (λ b, b ∈ valid_bases ∧ b ≠ ref_base) sample_bases) : gset string)))
      as Hsorted.
    apply Sorted_StronglySorted in Hsorted; [|apply _].
    fold (alt_alleles ref_base sample_bases) in Hsorted. fold alts in Hsorted.
    rewrite <-(take_drop j alts) in Hsorted, Ha.
    rewrite lookup_app_l in Ha
      by (rewrite length_take; apply lookup_lt_Some in Hb; lia).
    eapply StronglySorted_app_1_elem_of; [done| |].
    + by eapply list_elem_of_lookup_2.
    + apply (list_elem_of_lookup_2 _ 0). by rewrite lookup_drop, Nat.add_0_r.
  - intros ->. pose proof (alt_alleles_NoDup ref_base sample_bases) as Hnd.
    eapply NoDup_lookup in Hnd; [|exact Ha|exact Hb]. lia.
Qed.

(** The alternate list depends only on which calls occur in the row, not on
    their order nor on how often they occur. *)
Theorem alt_alleles_order_independent ref_base sample_bases1 sample_bases2 :
  (∀ b, b ∈ sample_bases1 ↔ b ∈ sample_bases2) →
  alt_alleles ref_base sample_bases1 = alt_alleles ref_base sample_bases2.
Proof.
  intros Hsame. unfold alt_alleles. do 2 f_equal. apply set_eq. intros b.
  rewrite !elem_of_list_to_set, !list_elem_of_filter, Hsame. done.
Qed.

Lemma alt_alleles_order_independent_witness :
  alt_alleles "A" ["G"; "C"; "A"; "G"] = alt_alleles "A" ["A"; "C"; "C"; "G"].
Proof.
  apply alt_alleles_order_independent. intros b.
  rewrite !elem_of_cons, !elem_of_nil. tauto.
Defined.

Lemma genotype_code_same_base ref_base sample_bases base1 base2 :
  ref_base ∈ valid_bases →
  base1 ∈ sample_bases → base2 ∈ sample_bases →
  base1 ∈ valid_bases → base2 ∈ valid_bases →
  let alts := alt_alleles ref_base sample_bases in
  genotype_code (classify ref_base alts base1)
  = genotype_code (classify ref_base alts base2) →
  base1 = base2.
Proof.
  intros Href Hin1 Hin2 Hv1 Hv2 alts.
  pose proof (alt_alleles_length ref_base sample_bases Href) as Hlen. fold alts in Hlen.
  assert (∀ base, base ∈ sample_bases → base ∈ valid_bases → base ≠ ref_base →
            ∃ i, classify ref_base alts base = Alternate (i + 1)
                 ∧ alts !! i = Some base ∧ i < 3) as Halt.
  { intros base Hin Hv Hne. rewrite classify_canonical by done.
    destruct (index base alts) as [i|] eqn:Hi.
    - exists i. split_and!; [done|by apply index_Some|].
      apply index_lt in Hi. lia.
    - apply index_None in Hi. destruct Hi. by apply elem_of_alt_alleles. }
  destruct (decide (base1 = ref_base)) as [->|Hne1];
    destruct (decide (base2 = ref_base)) as [->|Hne2]; [done| | |].
  - rewrite classify_reference by done.
    destruct (Halt base2) as (i & -> & _ & Hi); [done..|].
    destruct i as [|[|[|i]]]; [| | |lia]; by vm_compute.
  - rewrite (classify_reference ref_base) by done.
    destruct (Halt base1) as (i & -> & _ & Hi); [done..|].
    destruct i as [|[|[|i]]]; [| | |lia]; by vm_compute.
  - destruct (Halt base1) as (i & -> & Hb1 & Hi); [done..|].
    destruct (Halt base2) as (j & -> & Hb2 & Hj); [done..|].
    destruct i as [|[|[|i]]]; [| | |lia];
      (destruct j as [|[|[|j]]]; [| | |lia]); intros Hcode;
      try (by vm_compute in Hcode); congruence.
Qed.

(** In a record, two samples that carry different canonical bases get
    different genotype columns. *)
Theorem genotype_code_injective ref_base sample_bases base1 base2 :
  ref_base ∈ valid_bases →
  base1 ∈ sample_bases → base2 ∈ sample_bases →
  base1 ∈ valid_bases → base2 ∈ valid_bases →
  base1 ≠ base2 →
  let alts := alt_alleles ref_base sample_bases in
  genotype_code (classify ref_base alts base1)
  ≠ genotype_code (classify ref_base alts base2).
Proof.
  intros Href Hin1 Hin2 Hv1 Hv2 Hne alts Hcode. apply Hne.
  by apply (genotype_code_same_base ref_base sample_bases).
Qed.

Lemma genotype_code_injective_witness :
  genotype_code (classify "A" (alt_alleles "A" ["T"; "G"; "A"]) "G")
  ≠ genotype_code (classify "A" (alt_alleles "A" ["T"; "G"; "A"]) "T").
Proof.
  apply (genotype_code_injective "A" ["T"; "G"; "A"] "G" "T").
  - apply elem_of_valid_bases. left. reflexivity.
  - apply list_elem_of_In. simpl. right. left. reflexivity.
  - apply list_elem_of_In. simpl. left. reflexivity.
  - apply elem_of_valid_bases. right. right. left. reflexivity.
  - apply elem_of_valid_bases. right. right. right. reflexivity.
  - discriminate.
Defined.

(** ** Cells that the table cannot carry *)

Lemma rstrip_spaces ws : string_forall isspace ws → rstrip ws = "".
Proof.
  induction ws as [|c ws IH]; simpl; [done|].
  intros [Hc Hws]%andb_True. rewrite IH by done. by destruct (isspace c).
Qed.

Lemma rstrip_token_spaces s ws :
  is_token s → string_forall isspace ws → rstrip (s +:+ ws) = s.
Proof.
  intros Hs%is_token_no_space Hws. induction s as [|c s IH].
  - rewrite string_app_nil_l. by apply rstrip_spaces.
  - simpl in Hs. apply andb_True in Hs as [Hc Hs].
    rewrite string_app_cons. simpl. rewrite IH by done.
    destruct s; [|done]. by destruct (isspace c).
Qed.

Lemma rstrip_join_spaces fields ws :
  fields ≠ [] → Forall is_token fields → string_forall isspace ws →
  rstrip (join TAB fields +:+ ws) = join TAB fields.
Proof.
  intros Hne Hall Hws. induction Hall as [|x fields Hx Hall IH]; [done|].
  destruct fields as [|y fields].
  - by apply rstrip_token_spaces.
  - rewrite join_cons_cons, !string_app_assoc.
    rewrite <-(string_app_assoc x), rstrip_app_nonempty; rewrite IH by done.
    + by rewrite string_app_assoc.
    + apply join_token_nonempty. by inversion Hall.
Qed.

Lemma join_snoc (fields : list string) (w : string) :
  fields ≠ [] → join TAB (fields ++ [w]) = join TAB fields +:+ TAB +:+ w.
Proof.
  intros Hne. induction fields as [|x fields IH]; [done|].
  destruct fields as [|y fields]; [done|].
  specialize (IH ltac:(done)). simpl app in *.
  rewrite (join_cons_cons TAB x y (fields ++ [w])), IH.
  rewrite (join_cons_cons TAB x y fields). by rewrite !string_app_assoc.
Qed.

(** A last cell that is empty or all whitespace is lost when the line is
    read: the encoder sees the line without it, so the cell before it
    becomes the reference and the sample before that loses its genotype
    column. *)
Theorem trailing_blank_cell_dropped chrom position sample_bases ref_base blank out :
  Forall is_token (position :: sample_bases ++ [ref_base]) →
  string_forall isspace blank →
  line_fields (join TAB (position :: sample_bases ++ [ref_base; blank]) +:+ LF)
  = position :: (sample_bases ++ [ref_base])%list
  ∧ run (encode_line chrom
           (join TAB (position :: sample_bases ++ [ref_base; blank]) +:+ LF)) out
    = run (encode_line chrom
             (join TAB (position :: sample_bases ++ [ref_base]) +:+ LF)) out.
Proof.
  intros Htok Hblank.
  assert (line_fields (join TAB (position :: sample_bases ++ [ref_base; blank]) +:+ LF)
          = position :: (sample_bases ++ [ref_base])%list) as Hfields.
  { unfold line_fields, strip.
    change (position :: sample_bases ++ [ref_base; blank])%list
      with (position :: (sample_bases ++ [ref_base; blank]))%list.
    replace (position :: (sample_bases ++ [ref_base; blank]))%list
      with ((position :: (sample_bases ++ [ref_base])) ++ [blank])%list
      by (simpl; by rewrite <-app_assoc).
    rewrite join_snoc, !string_app_assoc by done.
    rewrite lstrip_join by done.
    rewrite rstrip_join_spaces; [|done|done|].
    - apply split_join; [done|]. eapply Forall_impl; [done|]. apply is_token_no_space.
    - unfold TAB, LF. rewrite string_app_cons, string_app_nil_l. simpl.
      rewrite string_forall_app. apply andb_True. by split. }
  split; [done|]. rewrite !encode_line_run.
  unfold line_fields in Hfields. rewrite Hfields.
  by rewrite split_strip_line.
Qed.

Lemma trailing_blank_cell_dropped_witness :
  line_fields (join TAB ("7" :: ["C"; "G"] ++ ["A"; " "]) +:+ LF)
  = "7" :: (["C"; "G"] ++ ["A"])%list
  ∧ run (encode_line "Chr1" (join TAB ("7" :: ["C"; "G"] ++ ["A"; " "]) +:+ LF)) ""
    = run (encode_line "Chr1" (join TAB ("7" :: ["C"; "G"] ++ ["A"]) +:+ LF)) "".
Proof.
  apply (trailing_blank_cell_dropped "Chr1" "7" ["C"; "G"] "A" " " "").
  - repeat constructor.
  - reflexivity.
Defined.

(** ** The columns of a record *)

Lemma split_no_sep sep s : no_char sep s → split sep s = [s].
Proof.
  induction s as [|c s IH]; simpl; [done|].
  intros [Hc Hs]%andb_True. rewrite bool_decide_false, IH; [done..|].
  intros ->. by rewrite bool_decide_true in Hc.
Qed.

Lemma split_app_sep sep s rest :
  no_char sep s → split sep (s +:+ String sep rest) = s :: split sep rest.
Proof.
  induction s as [|c s IH].
  - intros _. rewrite string_app_nil_l. simpl. by rewrite bool_decide_true.
  - rewrite string_app_cons. simpl. intros [Hc Hs]%andb_True.
    rewrite bool_decide_false, IH; [done..|].
    intros ->. by rewrite bool_decide_true in Hc.
Qed.

Lemma split_join_cells cells :
  cells ≠ [] → Forall (no_char "009") cells → split "009" (join TAB cells) = cells.
Proof.
  intros Hne Hall. induction Hall as [|x cells Hx Hall IH]; [done|].
  destruct cells as [|y cells].
  - by apply split_no_sep.
  - rewrite join_cons_cons. unfold TAB at 1. rewrite string_app_cons, string_app_nil_l.
    rewrite split_app_sep by done. f_equal. by apply IH.
Qed.

Lemma alt_field_no_tab ref_base sample_bases :
  no_char "009" (alt_field (alt_alleles ref_base sample_bases)).
Proof.
  assert (Forall (λ b, b ∈ valid_bases) (alt_alleles ref_base sample_bases)) as Hall.
  { apply Forall_forall. by intros b (_ & Hb & _)%elem_of_alt_alleles. }
  destruct (alt_alleles ref_base sample_bases) as [|a alts]; [done|].
  unfold alt_field. revert a Hall. induction alts as [|b alts IH]; intros a Hall.
  - apply Forall_cons in Hall as [Ha _].
    apply elem_of_valid_bases in Ha as [-> | [-> | [-> | ->]]]; done.
  - rewrite join_cons_cons. apply Forall_cons in Hall as [Ha Hall].
    apply no_char_app_2; [|apply no_char_app_2; [done|by apply IH]].
    apply elem_of_valid_bases in Ha as [-> | [-> | [-> | ->]]]; done.
Qed.

Lemma no_newline_join_cells cells :
  Forall no_newline cells → no_newline (join TAB cells).
Proof.
  induction 1 as [|x cells Hx Hall IH]; [done|].
  destruct cells as [|y cells]; [done|].
  rewrite join_cons_cons. unfold no_newline. rewrite !string_forall_app.
  apply andb_True. split; [done|]. apply andb_True. split; [done|apply IH].
Qed.

Lemma alt_field_no_newline ref_base sample_bases :
  no_newline (alt_field (alt_alleles ref_base sample_bases)).
Proof.
  assert (Forall (λ b, b ∈ valid_bases) (alt_alleles ref_base sample_bases)) as Hall.
  { apply Forall_forall. by intros b (_ & Hb & _)%elem_of_alt_alleles. }
  destruct (alt_alleles ref_base sample_bases) as [|a alts]; [done|].
  unfold alt_field. revert a Hall. induction alts as [|b alts IH]; intros a Hall.
  - apply Forall_cons in Hall as [Ha _].
    apply elem_of_valid_bases in Ha as [-> | [-> | [-> | ->]]]; done.
  - rewrite join_cons_cons. apply Forall_cons in Hall as [Ha Hall].
    unfold no_newline. rewrite !string_forall_app.
    apply andb_True. split; [|apply andb_True; split; [done|by apply IH]].
    apply elem_of_valid_bases in Ha as [-> | [-> | [-> | ->]]]; done.
Qed.

(** A record is text that ends in LF; the part before that LF splits on
    tabs into the chromosome label, the position, [.], the reference base,
    the ALT field, [.], [PASS], [.], [GT], then one genotype column per
    sample of the row (a tenth, empty column for a row without samples),
    provided that the label and the position hold no tab.  When the label
    and the position hold no line end either, the part before the final LF
    holds none: the record is exactly one line. *)
Theorem record_columns chrom position ref_base sample_bases :
  no_char "009" chrom → no_char "009" position → ref_base ∈ valid_bases →
  ∃ body,
    vcf_line chrom position ref_base sample_bases = body +:+ LF
    ∧ split "009" body
      = ([chrom; position; "."; ref_base;
          alt_field (alt_alleles ref_base sample_bases); "."; "PASS"; "."; "GT"]
          ++ match sample_bases with
             | [] => [""]
             | _ => genotypes ref_base sample_bases
             end)%list
    ∧ (no_newline chrom → no_newline position →
       no_newline body
       ∧ gzip_open_rt (vcf_line chrom position ref_base sample_bases)
         = [vcf_line chrom position ref_base sample_bases]).
Proof.
  intros Hchrom Hpos Href.
  assert (no_char "009" ref_base ∧ no_newline ref_base) as [Hreft Hrefn]
    by (apply elem_of_valid_bases in Href as [-> | [-> | [-> | ->]]]; done).
  pose proof (alt_field_no_tab ref_base sample_bases) as Halt.
  assert (Forall (λ code, no_char "009" code ∧ no_newline code)
            (genotypes ref_base sample_bases)) as Hcodes.
  { eapply Forall_impl; [by apply genotypes_in_alphabet|].
    intros code Hcode. simpl in Hcode. rewrite !elem_of_cons, elem_of_nil in Hcode.
    destruct Hcode as [-> | [-> | [-> | [-> | [-> | []]]]]]; done. }
  assert (Forall (no_char "009") (genotypes ref_base sample_bases)) as Hgt
    by (eapply Forall_impl; [exact Hcodes|]; intros ? H; cbv beta in H; by destruct H).
  assert (Forall no_newline (genotypes ref_base sample_bases)) as Hgn
    by (eapply Forall_impl; [exact Hcodes|]; intros ? H; cbv beta in H; by destruct H).
  set (body := join TAB
    ([chrom; position; "."; ref_base;
      alt_field (alt_alleles ref_base sample_bases); "."; "PASS"; "."]
       ++ ["GT" +:+ TAB +:+ join TAB (genotypes ref_base sample_bases)])).
  assert (vcf_line chrom position ref_base sample_bases = body +:+ LF) as Hbody.
  { subst body. unfold vcf_line, join at 2. cbn [app String.concat].
    by rewrite !string_app_assoc. }
  exists body. split_and!.
  - done.
  - subst body. destruct sample_bases as [|base sample_bases].
    + unfold join at 1. cbn [app String.concat].
      repeat (unfold TAB at 1; rewrite (string_app_cons "009"), string_app_nil_l;
              rewrite split_app_sep by done; f_equal).
    + transitivity (split "009" (join TAB
        ([chrom; position; "."; ref_base;
          alt_field (alt_alleles ref_base (base :: sample_bases)); "."; "PASS";
          "."; "GT"] ++ genotypes ref_base (base :: sample_bases)))).
      * reflexivity.
      * apply split_join_cells; [done|].
        repeat (constructor; [done|]). done.
  - intros Hcn Hpn.
    assert (no_newline body) as Hnl.
    { subst body. apply no_newline_join_cells. simpl app.
      repeat (constructor; [done || apply alt_field_no_newline|]).
      constructor; [|done]. unfold no_newline. rewrite !string_forall_app.
      apply andb_True. split; [done|]. apply andb_True. split; [done|].
      by apply no_newline_join_cells. }
    split; [done|]. rewrite Hbody.
    rewrite <-(string_app_nil_r LF) at 1. by rewrite gzip_open_rt_line.
Qed.

Lemma record_columns_witness :
  ∃ body,
    vcf_line "Chr 1" "12" "A" ["A"; "G"; "N"] = body +:+ LF
    ∧ split "009" body
      = (["Chr 1"; "12"; "."; "A"; alt_field (alt_alleles "A" ["A"; "G"; "N"]);
          "."; "PASS"; "."; "GT"] ++ genotypes "A" ["A"; "G"; "N"])%list
    ∧ no_newline body
    ∧ gzip_open_rt (vcf_line "Chr 1" "12" "A" ["A"; "G"; "N"])
      = [vcf_line "Chr 1" "12" "A" ["A"; "G"; "N"]].
Proof.
  destruct (record_columns "Chr 1" "12" "A" ["A"; "G"; "N"])
    as (body & Hline & Hcells & Hone).
  - reflexivity.
  - reflexivity.
  - apply elem_of_valid_bases. left. reflexivity.
  - exists body. split; [exact Hline|]. split; [exact Hcells|].
    apply Hone; reflexivity.
Defined.

(** ** How the Matrix Streamer ends *)

Lemma datasets_of_nil accs : datasets_of accs = [] ↔ accs = ∅.
Proof.
  split.
  - intros Hnil. destruct (decide (accs = ∅)) as [|Hne]; [done|].
    by apply datasets_of_nonempty in Hne.
  - intros ->. unfold datasets_of. by rewrite (proj2 (sample_names_nil ∅)).
Qed.

(** For every store and positive window size the stage ends in one of three
    ways, decided by the store alone: IndexError, with nothing written, when
    the store has no sample; ValueError when some array is shorter than the
    array of the first identifier in sorted order; success otherwise.  No
    identifier lookup ever fails. *)
Theorem streamer_outcome C accs :
  0 < C →
  let status := (run (h5_to_tsv_with C accs) "").2 in
  (status = Raise IndexError ↔ accs = ∅)
  ∧ (status = Raise ValueError ↔
       ∃ ds0 rest, datasets_of accs = ds0 :: rest
                   ∧ Exists (λ ds, length ds < length ds0) rest)
  ∧ (status = Ok () ↔
       ∃ ds0 rest, datasets_of accs = ds0 :: rest
                   ∧ Forall (λ ds, length ds0 ≤ length ds) rest)
  ∧ status ≠ Raise KeyError
  ∧ (accs = ∅ → (run (h5_to_tsv_with C accs) "").1 = "").
Proof.
  intros HC status. subst status.
  pose proof (h5_to_tsv_with_outcome C accs HC) as Hout.
  pose proof (datasets_of_nil accs) as Hnil.
  destruct (datasets_of accs) as [|ds0 rest] eqn:Hds.
  - rewrite Hout. simpl. split_and!; try done.
    + split; [intros _; by apply Hnil|done].
    + split; [done|]. by intros (? & ? & ? & _).
    + split; [done|]. by intros (? & ? & ? & _).
  - assert (accs ≠ ∅) as Hne by (intros ?%Hnil; done).
    case_decide as Hall.
    + rewrite Hout. simpl. split_and!; try done.
      * split; [done|]. intros (? & ? & [= <- <-] & Hex).
        apply Exists_exists in Hex as (ds & Hin & Hlt).
        rewrite Forall_forall in Hall. specialize (Hall ds Hin). simpl in *. lia.
      * split; [|done]. intros _. by exists ds0, rest.
    + destruct Hout as [tsv ->]. simpl. split_and!; try done.
      * split; [|done]. intros _. exists ds0, rest. split; [done|].
        apply not_Forall_Exists in Hall; [|apply _].
        eapply Exists_impl; [done|]. intros ds Hd. simpl in *. lia.
      * split; [done|]. by intros (? & ? & [= <- <-] & ?).
Qed.

Lemma streamer_outcome_witness :
  let accs : gmap string dataset := {[ "a" := ["A"; "C"; "G"]; "b" := ["A"; "C"] ]} in
  let status := (run (h5_to_tsv_with 7 accs) "").2 in
  (status = Raise IndexError ↔ accs = ∅)
  ∧ (status = Raise ValueError ↔
       ∃ ds0 rest, datasets_of accs = ds0 :: rest
                   ∧ Exists (λ ds, length ds < length ds0) rest)
  ∧ (status = Ok () ↔
       ∃ ds0 rest, datasets_of accs = ds0 :: rest
                   ∧ Forall (λ ds, length ds0 ≤ length ds) rest)
  ∧ status ≠ Raise KeyError
  ∧ (accs = ∅ → (run (h5_to_tsv_with 7 accs) "").1 = "").
Proof.
  intros accs. apply (streamer_outcome 7 accs). lia.
Defined.

(** ** What the table ignores *)

Lemma sample_names_fmap (f : dataset → dataset) accs :
  sample_names (f <$> accs) = sample_names accs.
Proof. unfold sample_names. by rewrite dom_fmap_L. Qed.

Lemma datasets_of_fmap (f : dataset → dataset) accs :
  datasets_of (f <$> accs) = f <$> datasets_of accs.
Proof.
  unfold datasets_of. rewrite sample_names_fmap, <-list_fmap_compose.
  apply Forall_fmap_ext_1, Forall_forall. intros name Hname%elem_of_sample_names.
  unfold compose. by apply lookup_total_fmap'.
Qed.

Lemma header_line_fmap (f : dataset → dataset) accs :
  header_line (f <$> accs) = header_line accs.
Proof. unfold header_line. by rewrite sample_names_fmap. Qed.

Lemma table_rows_take datasets N :
  table_rows (take N <$> datasets) 0 N = table_rows datasets 0 N.
Proof.
  unfold table_rows. apply Forall_fmap_ext_1, Forall_forall.
  intros i [_ Hi]%elem_of_seq. unfold table_row. f_equal.
  rewrite <-list_fmap_compose. apply list_fmap_ext. intros _ ds _.
  unfold compose. apply lookup_total_take_lt. lia.
Qed.

(** When no array is shorter than the array of the first identifier in
    sorted order, whatever the other arrays hold beyond that length is
    ignored: cutting every array to that length leaves the run unchanged. *)
Theorem longer_arrays_truncated C accs ds0 rest :
  0 < C →
  datasets_of accs = ds0 :: rest →
  Forall (λ ds, length ds0 ≤ length ds) rest →
  run (h5_to_tsv_with C (take (length ds0) <$> accs)) ""
  = run (h5_to_tsv_with C accs) "".
Proof.
  intros HC Hds Hall.
  rewrite (h5_to_tsv_with_complete C accs ds0 rest) by done.
  rewrite (h5_to_tsv_with_complete C _ ds0 (take (length ds0) <$> rest)).
  - rewrite header_line_fmap, datasets_of_fmap. by rewrite table_rows_take.
  - done.
  - rewrite datasets_of_fmap, Hds, fmap_cons. by rewrite firstn_all.
  - apply Forall_fmap. eapply Forall_impl; [done|]. intros ds Hd. simpl in *.
    rewrite length_take. lia.
Qed.

Lemma longer_arrays_truncated_witness :
  let accs : gmap string dataset :=
    {[ "a" := ["A"; "C"]; "b" := ["A"; "G"; "T"; "T"] ]} in
  run (h5_to_tsv_with 5 (take (length ["A"; "C"]) <$> accs)) ""
  = run (h5_to_tsv_with 5 accs) "".
Proof.
  intros accs.
  apply (longer_arrays_truncated 5 accs ["A"; "C"] [["A"; "G"; "T"; "T"]]).
  - lia.
  - reflexivity.
  - repeat constructor.
Defined.

(** ** The table, written and read back *)

(** For a store of tokens, the table that the first stage writes is read
    back by the second stage as one line per position after the header
    line, and splitting each line gives back its cells: the column names,
    then each position followed by the calls in sorted-identifier order. *)
Theorem table_round_trip C accs N :
  0 < C → accs ≠ ∅ →
  map_Forall (λ name ds, is_token name ∧ length ds = N ∧ Forall is_token ds) accs →
  ∃ tsv,
    run (h5_to_tsv_with C accs) "" = (tsv, Ok ())
    ∧ line_fields <$> gzip_open_rt tsv
      = ("pos" :: sample_names accs) :: table_rows (datasets_of accs) 0 N.
Proof.
  intros HC Hne Htok.
  assert (is_Some (last (sample_names accs))) as [ref_name Hlast].
  { apply last_is_Some. by rewrite sample_names_nil. }
  apply last_Some in Hlast as [others Hnames].
  eexists. split; [by apply (h5_to_tsv_with_tokens accs N others ref_name)|].
  rewrite (gzip_open_rt_table accs N others ref_name) by done.
  rewrite fmap_cons. f_equal.
  - apply split_strip_line; [done|]. constructor; [done|].
    by apply (sample_names_tokens accs N).
  - rewrite <-list_fmap_compose. unfold table_rows. rewrite Nat.sub_0_r.
    apply Forall_fmap_ext_1, Forall_forall. intros i [_ Hi]%elem_of_seq.
    unfold compose. rewrite <-(table_row_calls accs others ref_name Hnames).
    apply split_strip_line; [done|].
    apply (table_row_tokens accs N Htok). lia.
Qed.

Lemma table_round_trip_witness :
  let accs : gmap string dataset :=
    {[ "s1" := ["A"; "C"; "G"]; "s2" := ["A"; "N"; "-"] ]} in
  ∃ tsv,
    run (h5_to_tsv_with 2 accs) "" = (tsv, Ok ())
    ∧ line_fields <$> gzip_open_rt tsv
      = ("pos" :: sample_names accs) :: table_rows (datasets_of accs) 0 3.
Proof.
  intros accs. apply (table_round_trip 2 accs 3).
  - lia.
  - intros H. apply (f_equal (λ m : gmap string dataset, m !! "s1")) in H.
    vm_compute in H. discriminate H.
  - apply map_Forall_to_list. vm_compute. repeat constructor.
Defined.
